(** * Socketeer: the websocket hub and the change-feed pipeline

    A shallow embedding of the Go packages [internal/ws], [internal/db] and
    [socketeer], and the properties of the broadcast hub and of the
    change-feed-to-broadcast loop that follow from the code. *)

From Stdlib Require Import ZArith.
From stdpp Require Import gmap strings list fin_maps fin_sets pretty sorting.

Local Open Scope string_scope.
Local Open Scope list_scope.

(** Go's [error] values are carried as their message. *)
Definition Error := string.

(** A [[]byte] / Go [string]: a sequence of 8-bit characters. *)
Definition bytes := string.

(** How a call ends.  [log.Fatal] prints and calls [os.Exit(1)]: the process
    stops there, deferred functions are not run and the statement after
    [log.Fatal] (the [return err] the sources write) is never reached. *)
Inductive Exec (A : Type) : Type :=
| Normal (a : A)
| Fatal (err : Error).
Arguments Normal {A} a.
Arguments Fatal {A} err.

(** ** Package [internal/ws] *)
Module ws.

(** A [*websocket.Conn]: the identity of one connection object. *)
Definition Conn := nat.

(** What the package does that the lock is about: the calls made on
    connections, that is its network I/O, and the changes of the [clients]
    map. *)
Inductive Event : Type :=
| CallWrite (c : Conn) (data : bytes)
| CallRead (c : Conn)
| CallClose (c : Conn)
| MapInsert (c : Conn)
| MapDelete (c : Conn)
| MapReset.

Definition is_io (e : Event) : bool :=
  match e with
  | CallWrite _ _ | CallRead _ | CallClose _ => true
  | MapInsert _ | MapDelete _ | MapReset => false
  end.

(** The [WebSocket] struct ([clients], [clientsMux]) together with the
    connections it talks to:
    - [closed]: the connections on which [Close] was called;
    - [broken]: the connections whose peer is gone, on which a write fails;
    - [delivered]: per connection, the messages written with success,
      oldest first;
    - [trace]: the network calls that have returned and the changes of
      [clients] so far, oldest first, each with the state of [clientsMux] at
      that moment. *)
Record World : Type := mkWorld {
  clients : gset Conn;
  clientsMux : bool;
  closed : gset Conn;
  broken : gset Conn;
  delivered : gmap Conn (list bytes);
  trace : list (bool * Event)
}.

Definition set_clients (s : gset Conn) (w : World) : World :=
  mkWorld s (clientsMux w) (closed w) (broken w) (delivered w) (trace w).

Definition set_mux (b : bool) (w : World) : World :=
  mkWorld (clients w) b (closed w) (broken w) (delivered w) (trace w).

Definition log (e : Event) (w : World) : World :=
  mkWorld (clients w) (clientsMux w) (closed w) (broken w) (delivered w)
          (trace w ++ [(clientsMux w, e)]).

(** [w.clients[conn] = struct{}{}], [delete(w.clients, conn)] and
    [w.clients = make(map[*websocket.Conn]struct{})]. *)
Definition map_insert (conn : Conn) (w : World) : World :=
  log (MapInsert conn) (set_clients ({[conn]} ∪ clients w) w).

Definition map_delete (conn : Conn) (w : World) : World :=
  log (MapDelete conn) (set_clients (clients w ∖ {[conn]}) w).

Definition map_reset (w : World) : World :=
  log MapReset (set_clients ∅ w).

(** The messages connection [c] has received. *)
Definition received (w : World) (c : Conn) : list bytes :=
  default [] (delivered w !! c).

Definition deliver (c : Conn) (data : bytes) (w : World) : World :=
  mkWorld (clients w) (clientsMux w) (closed w) (broken w)
          (<[c := received w c ++ [data]]> (delivered w)) (trace w).

(** [w.clientsMux.Lock()] and [w.clientsMux.Unlock()].  The functions below
    are run one after the other; each gives the mutex back before it ends,
    so a [Lock] never finds it held. *)
Definition Lock (w : World) : World := set_mux true w.
Definition Unlock (w : World) : World := set_mux false w.

(** A write reaches the peer when the connection is neither closed nor
    broken. *)
Definition writable (w : World) (c : Conn) : bool :=
  bool_decide (c ∉ closed w) && bool_decide (c ∉ broken w).

(** [client.WriteMessage(websocket.TextMessage, update)]. *)
Definition WriteMessage (c : Conn) (data : bytes) (w : World)
  : World * option Error :=
  let w1 := log (CallWrite c data) w in
  if writable w c then (deliver c data w1, None)
  else (w1, Some "write: connection closed").

(** [client.Close()]. *)
Definition Close (c : Conn) (w : World) : World :=
  let w1 := log (CallClose c) w in
  mkWorld (clients w1) (clientsMux w1) ({[c]} ∪ closed w1) (broken w1)
          (delivered w1) (trace w1).

(** The result of one [conn.ReadMessage()]. *)
Inductive ReadResult : Type :=
| ReadMsg (msgType : Z) (msg : bytes)
| ReadErr (err : Error).

(** [NewWebSocket]: an empty [clients] map and an unlocked mutex; no
    connection exists yet, so nothing is closed, broken or delivered and no
    call was made. *)
Definition NewWebSocket : World := mkWorld ∅ false ∅ ∅ ∅ [].

(** The peer of [c] goes away: from now on a write on [c] fails.  This is
    a step of the network, not of the package. *)
Definition peer_gone (c : Conn) (w : World) : World :=
  mkWorld (clients w) (clientsMux w) (closed w) ({[c]} ∪ broken w)
          (delivered w) (trace w).

(** An order in which [range] may visit the keys of a map: every key once. *)
Definition range_ok (range : gset Conn → list Conn) : Prop :=
  ∀ s, range s ≡ₚ elements s.

Section Range.

(** [for client := range w.clients]: Go visits every key of the map once, in
    an order the language leaves open.  [range s] is the order chosen for
    the key set [s]. *)
Variable range : gset Conn → list Conn.

(** The loop of [DispatchUpdate] over the keys still to visit. *)
Fixpoint DispatchUpdate_loop (todo : list Conn) (update : bytes) (w : World)
  : World :=
  match todo with
  | [] => w
  | client :: rest =>
      match WriteMessage client update w with
      | (w1, Some _err) => w1 (* log.Println(err); return *)
      | (w1, None) => DispatchUpdate_loop rest update w1
      end
  end.

(** [func (w *WebSocket) DispatchUpdate(update []byte)]: lock, with the
    unlock deferred to the return; write to the clients in range order and
    return at the first write that fails. *)
Definition DispatchUpdate (update : bytes) (w : World) : World :=
  let w1 := Lock w in
  let w2 := DispatchUpdate_loop (range (clients w1)) update w1 in
  Unlock w2.

(** [func (w *WebSocket) Stop()]: lock, with the unlock deferred; close every
    client; replace [clients] by a fresh empty map. *)
Definition Stop (w : World) : World :=
  let w1 := Lock w in
  let w2 := foldl (λ acc client, Close client acc) w1 (range (clients w1)) in
  let w3 := map_reset w2 in
  Unlock w3.

End Range.

(** The [for] loop of [handleConnection] over the results [ReadMessage]
    gives.  A message is printed and the loop goes on; an error is logged,
    the connection is deleted from [clients] under the lock and the loop
    breaks.  The boolean tells whether the loop was left: when the results
    known so far hold no error the goroutine is still blocked in a
    [ReadMessage] that has not returned. *)
Fixpoint handleConnection_loop (conn : Conn) (reads : list ReadResult)
  (w : World) : World * bool :=
  match reads with
  | [] => (w, false)
  | ReadMsg _ _ :: rest =>
      handleConnection_loop conn rest (log (CallRead conn) w)
  | ReadErr _ :: _ =>
      let w1 := log (CallRead conn) w in
      let w2 := Lock w1 in
      let w3 := map_delete conn w2 in
      (Unlock w3, true)
  end.

(** [func (w *WebSocket) handleConnection(conn *websocket.Conn)]: the read
    loop, then the deferred function: delete [conn] from [clients] under the
    lock, then close it. *)
Definition handleConnection (conn : Conn) (reads : list ReadResult)
  (w : World) : World * bool :=
  match handleConnection_loop conn reads w with
  | (w1, true) =>
      let w2 := Lock w1 in
      let w3 := map_delete conn w2 in
      let w4 := Unlock w3 in
      (Close conn w4, true)
  | (w1, false) => (w1, false)
  end.

(** [func (w *WebSocket) websocketHandler(res, req)]: [upgrade] is the result
    of [upgrader.Upgrade]; a failed upgrade is fatal.  The new connection is
    put in [clients] under the lock, and the handler goes on as its read
    loop. *)
Definition websocketHandler (upgrade : Error + Conn)
  (reads : list ReadResult) (w : World) : Exec (World * bool) :=
  match upgrade with
  | inl err => Fatal err
  | inr conn =>
      let w1 := Lock w in
      let w2 := map_insert conn w1 in
      let w3 := Unlock w2 in
      Normal (handleConnection conn reads w3)
  end.

(** The lock discipline on a stretch of the trace: every change of
    [clients] was made with [clientsMux] held; every network call was made
    with it free, or every network call was made with it held. *)
Definition changes_locked (l : list (bool * Event)) : Prop :=
  Forall (λ he, is_io he.2 = false → he.1 = true) l.

Definition io_unlocked (l : list (bool * Event)) : Prop :=
  Forall (λ he, is_io he.2 = true → he.1 = false) l.

Definition io_locked (l : list (bool * Event)) : Prop :=
  Forall (λ he, is_io he.2 = true → he.1 = true) l.

Definition is_write (e : Event) : bool :=
  match e with CallWrite _ _ => true | _ => false end.

Definition is_close (e : Event) : bool :=
  match e with CallClose _ => true | _ => false end.

(** How far a call that may block has come: it ended, or it is still
    running. *)
Inductive Progress (A : Type) : Type :=
| Ended (r : Exec A)
| Running.
Arguments Ended {A} r.
Arguments Running {A}.

(** The server of [Start] handling the connection requests it gets: each
    request runs [websocketHandler], with the result of its upgrade and the
    results its read loop gets; a handler that calls [log.Fatal] ends the
    process, and with it the server. *)
Fixpoint Start_serve (requests : list ((Error + Conn) * list ReadResult))
  (w : World) : World * option Error :=
  match requests with
  | [] => (w, None)
  | (upgrade, reads) :: rest =>
      match websocketHandler upgrade reads w with
      | Fatal err => (w, Some err)
      | Normal (w', _) => Start_serve rest w'
      end
  end.

(** [func (w *WebSocket) Start(host string, endpoint string)]:
    [http.HandleFunc(endpoint, w.websocketHandler)], then
    [http.ListenAndServe]; [served] is what [ListenAndServe] returned, if it
    has returned, and an error it returns is fatal. *)
Definition Start (requests : list ((Error + Conn) * list ReadResult))
  (served : option (option Error)) (w : World) : World * Progress unit :=
  match Start_serve requests w with
  | (w', Some err) => (w', Ended (Fatal err))
  | (w', None) =>
      match served with
      | None => (w', Running)
      | Some (Some err) => (w', Ended (Fatal err))
      | Some None => (w', Ended (Normal ()))
      end
  end.

End ws.

(** ** Package [internal/db] *)
Module db.

(** *** BSON documents *)

(** The values of a BSON document as the driver hands them to Go.
    [VOther text] is a value of a BSON type that decodes neither into a Go
    [string] nor into a struct or a map (a double, an array, a date, ...),
    carried with the text [%v] prints for it. *)
#[warning="-register-all"]
Inductive Value : Type :=
| VString (s : string)
| VInt32 (n : Z)
| VBool (b : bool)
| VNull
| VDocument (d : list (string * Value))
| VOther (text : string).

(** [bson.D]: the elements of a document, in order. *)
Abbreviation D := (list (string * Value)).

(** [bson.M]: [map[string]interface{}]. *)
Abbreviation M := (gmap string Value).

(** Entries written one after the other into a Go map: the last value
    written under a key stays. *)
Definition fill {A} (m : gmap string A) (d : list (string * A))
  : gmap string A :=
  foldl (λ acc kv, <[kv.1 := kv.2]> acc) m d.

Definition key_le (a b : string * string) : Prop := String.leb a.1 b.1 = true.

#[export] Instance key_le_dec a b : Decision (key_le a b).
Proof. unfold key_le. apply _. Defined.

Definition join (sep : string) (l : list string) : string :=
  match l with
  | [] => ""
  | x :: r => foldl (λ acc y, acc +:+ sep +:+ y) x r
  end.

(** [fmt.Sprintf("%v", value)].  A document held in a [bson.M] is a Go map
    and prints as [map[k:v k:v]] with its keys sorted. *)
Fixpoint Sprintf_v (value : Value) : string :=
  match value with
  | VString s => s
  | VInt32 n => pretty n
  | VBool true => "true"
  | VBool false => "false"
  | VNull => "<nil>"
  | VDocument d =>
      let fix each (d : D) : list (string * string) :=
        match d with
        | [] => []
        | (k, v) :: r => (k, Sprintf_v v) :: each r
        end in
      let entries := merge_sort key_le (map_to_list (fill ∅ (each d))) in
      "map[" +:+ join " " ((λ kv, kv.1 +:+ ":" +:+ kv.2) <$> entries) +:+ "]"
  | VOther text => text
  end.

(** *** The event structs *)

(** [UpdateEvent], with the field of its nested [UpdateDescription] struct. *)
Record UpdateEvent : Type := mkUpdateEvent {
  u_OperationType : string;
  u_UpdatedFields : M
}.

Record CreateEvent : Type := mkCreateEvent {
  c_OperationType : string;
  c_FullDocument : M
}.

(** [UpdateEvent{}] and [CreateEvent{}]: the empty string and the nil map. *)
Definition UpdateEvent_zero : UpdateEvent := mkUpdateEvent "" ∅.
Definition CreateEvent_zero : CreateEvent := mkCreateEvent "" ∅.

(** *** [bson.Marshal] and [bson.Unmarshal] *)

(** [bson.Marshal(temp)] for a [temp] that was just decoded from the stream:
    the document is written back as it is.  The sum type keeps the error
    result the callers test. *)
Definition bson_Marshal (temp : D) : Error + D := inr temp.

(** A BSON value decoded into a Go [string] field. *)
Definition decode_string (v : Value) : Error + string :=
  match v with
  | VString s => inr s
  | VNull => inr ""
  | _ => inl "cannot decode into a string type"
  end.

(** A BSON value decoded into a [bson.M] field holding [cur]: a document adds
    its elements to the map, null sets the nil map. *)
Definition decode_M (v : Value) (cur : M) : Error + M :=
  match v with
  | VDocument d => inr (fill cur d)
  | VNull => inr ∅
  | _ => inl "cannot decode into a map"
  end.

(** The struct decoder on the [updateDescription] document: the elements are
    read in order, [updatedFields] goes to its field, every other element is
    skipped, and the first element that does not decode ends the decoding with
    what was set so far. *)
Fixpoint decode_UpdateDescription (d : D) (cur : M) : M * option Error :=
  match d with
  | [] => (cur, None)
  | (k, v) :: rest =>
      if decide (k = "updatedFields") then
        match decode_M v cur with
        | inl err => (cur, Some err)
        | inr m => decode_UpdateDescription rest m
        end
      else decode_UpdateDescription rest cur
  end.

(** [bson.Unmarshal(bsonBytes, &updateResult)]: returns the struct as it is
    left and the error. *)
Fixpoint Unmarshal_UpdateEvent (d : D) (cur : UpdateEvent)
  : UpdateEvent * option Error :=
  match d with
  | [] => (cur, None)
  | (k, v) :: rest =>
      if decide (k = "operationType") then
        match decode_string v with
        | inl err => (cur, Some err)
        | inr s =>
            Unmarshal_UpdateEvent rest (mkUpdateEvent s (u_UpdatedFields cur))
        end
      else if decide (k = "updateDescription") then
        match v with
        | VDocument d' =>
            match decode_UpdateDescription d' (u_UpdatedFields cur) with
            | (m, Some err) =>
                (mkUpdateEvent (u_OperationType cur) m, Some err)
            | (m, None) =>
                Unmarshal_UpdateEvent rest
                  (mkUpdateEvent (u_OperationType cur) m)
            end
        | VNull =>
            Unmarshal_UpdateEvent rest
              (mkUpdateEvent (u_OperationType cur) ∅)
        | _ => (cur, Some "cannot decode into a struct")
        end
      else Unmarshal_UpdateEvent rest cur
  end.

(** [bson.Unmarshal(bsonBytes, &createResult)]. *)
Fixpoint Unmarshal_CreateEvent (d : D) (cur : CreateEvent)
  : CreateEvent * option Error :=
  match d with
  | [] => (cur, None)
  | (k, v) :: rest =>
      if decide (k = "operationType") then
        match decode_string v with
        | inl err => (cur, Some err)
        | inr s =>
            Unmarshal_CreateEvent rest (mkCreateEvent s (c_FullDocument cur))
        end
      else if decide (k = "fullDocument") then
        match decode_M v (c_FullDocument cur) with
        | inl err => (cur, Some err)
        | inr m =>
            Unmarshal_CreateEvent rest (mkCreateEvent (c_OperationType cur) m)
        end
      else Unmarshal_CreateEvent rest cur
  end.

(** [item.Value == "update"]: the value is a Go string equal to [s]. *)
Definition is_string (v : Value) (s : string) : bool :=
  match v with
  | VString s' => bool_decide (s' = s)
  | _ => false
  end.

(** *** Records as MongoDB sends them *)

(** An update record: distinct keys, the operation type update, and an
    update description that holds the delta. *)
Definition update_record (temp ud delta : D) : Prop :=
  NoDup temp.*1 ∧
  ("operationType", VString "update") ∈ temp ∧
  ("updateDescription", VDocument ud) ∈ temp ∧
  NoDup ud.*1 ∧
  ("updatedFields", VDocument delta) ∈ ud.

(** An insert record: distinct keys, the operation type insert, and the
    full document. *)
Definition insert_record (temp doc : D) : Prop :=
  NoDup temp.*1 ∧
  ("operationType", VString "insert") ∈ temp ∧
  ("fullDocument", VDocument doc) ∈ temp.

(** A record of another kind: no [operationType] element holds the string
    update or the string insert. *)
Definition other_record (temp : D) : Prop :=
  ∀ v, ("operationType", v) ∈ temp →
       is_string v "update" = false ∧ is_string v "insert" = false.

(** *** [Listen] *)

(** The nested loops that fill [responseMap]: for every entry of the source
    map, in the order [range] gives them, and every configured key equal to
    the entry's key, [responseMap[key] = fmt.Sprintf("%v", value)]. *)
Definition project (entries : list (string * Value)) (keys : list string)
  : gmap string string :=
  foldl (λ responseMap kv,
           foldl (λ responseMap k,
                    if decide (kv.1 = k)
                    then <[kv.1 := Sprintf_v kv.2]> responseMap
                    else responseMap)
                 responseMap keys)
        ∅ entries.

(** The loop [for _, item := range temp] of [Listen]: each [operationType]
    element that holds the string update or insert resets the matching
    struct and decodes [temp] into it.  A failure of [bson.Marshal] is fatal;
    the error of [bson.Unmarshal] is not looked at. *)
Fixpoint classify (items temp : D) (updateResult : UpdateEvent)
  (createResult : CreateEvent) : Exec (UpdateEvent * CreateEvent) :=
  match items with
  | [] => Normal (updateResult, createResult)
  | (Key, Value) :: rest =>
      if decide (Key = "operationType") then
        if is_string Value "update" then
          match bson_Marshal temp with
          | inl err => Fatal err
          | inr bsonBytes =>
              classify rest temp
                (Unmarshal_UpdateEvent bsonBytes UpdateEvent_zero).1
                createResult
          end
        else if is_string Value "insert" then
          match bson_Marshal temp with
          | inl err => Fatal err
          | inr bsonBytes =>
              classify rest temp updateResult
                (Unmarshal_CreateEvent bsonBytes CreateEvent_zero).1
          end
        else classify rest temp updateResult createResult
      else classify rest temp updateResult createResult
  end.

Section Listen.

(** The order of [range] over the clients of the hub. *)
Variable range : gset ws.Conn → list ws.Conn.

(** [json.Marshal] on a [map[string]string]. *)
Variable json_Marshal : gmap string string → Error + bytes.

(** One round of the loop of [Listen] on the result of
    [changeStream.Decode(&temp)]. *)
Definition Listen_body (keys : list string) (decoded : Error + D)
  (w : ws.World) : Exec ws.World :=
  match decoded with
  | inl err => Fatal err
  | inr temp =>
      match classify temp temp UpdateEvent_zero CreateEvent_zero with
      | Fatal err => Fatal err
      | Normal (updateResult, createResult) =>
          if decide (u_OperationType updateResult = "update") then
            let responseMap :=
              project (map_to_list (u_UpdatedFields updateResult)) keys in
            match json_Marshal responseMap with
            | inl err => Fatal err
            | inr data => Normal (ws.DispatchUpdate range data w)
            end
          else if decide (c_OperationType createResult = "insert") then
            let responseMap :=
              project (map_to_list (c_FullDocument createResult)) keys in
            match json_Marshal responseMap with
            | inl err => Fatal err
            | inr data => Normal (ws.DispatchUpdate range data w)
            end
          else Normal w
      end
  end.

(** [for changeStream.Next(ctx) { ... }] followed by [return nil]: [feed]
    holds the result of [Decode] for each record [Next] delivers before it
    returns false.  The hub is returned as it is when the call ends. *)
Fixpoint Listen_loop (keys : list string) (feed : list (Error + D))
  (w : ws.World) : ws.World * Exec (option Error) :=
  match feed with
  | [] => (w, Normal None)
  | decoded :: rest =>
      match Listen_body keys decoded w with
      | Fatal err => (w, Fatal err)
      | Normal w1 => Listen_loop keys rest w1
      end
  end.

(** [func (d *DB) Listen(ws *ws.WebSocket, keys []string) error]: [watch] is
    the result of [coll.Watch]. *)
Definition Listen (watch : Error + list (Error + D)) (keys : list string)
  (w : ws.World) : ws.World * Exec (option Error) :=
  match watch with
  | inl err => (w, Fatal err)
  | inr feed => Listen_loop keys feed w
  end.

End Listen.

(** *** [Connect] and [Disconnect] *)

(** A [*mongo.Client]. *)
Record Client : Type := mkClient {
  uri : string;
  connected : bool
}.

(** The [DB] struct: the client, the database handle by its name, the
    collection handle by the names of its database and of the collection. *)
Record DB : Type := mkDB {
  db_Client : Client;
  db_DB : string;
  db_Coll : string * string
}.

(** [os.Getenv(key)]: the value of the variable, empty when it is not set. *)
Definition Getenv (env : gmap string string) (key : string) : string :=
  default "" (env !! key).

Section Driver.

(** [mongo.Connect], [client.Ping] and [client.Disconnect]. *)
Variable mongo_Connect : string → Error + Client.
Variable Client_Ping : Client → option Error.
Variable Client_Disconnect : Client → Client * option Error.

(** [func Connect(uriString, dbName, collName string)], which returns the
    [DB] and an error. *)
Definition Connect (env : gmap string string)
  (uriString dbName collName : string) : Exec (DB * option Error) :=
  match mongo_Connect uriString with
  | inl err => Fatal err
  | inr client =>
      match Client_Ping client with
      | Some err => Fatal err
      | None =>
          Normal (mkDB client dbName (dbName, Getenv env collName), None)
      end
  end.

(** [func (d *DB) Disconnect() error]. *)
Definition Disconnect (d : DB) : Exec (DB * option Error) :=
  match Client_Disconnect (db_Client d) with
  | (_, Some err) => Fatal err
  | (client, None) => Normal (mkDB client (db_DB d) (db_Coll d), None)
  end.

End Driver.

End db.

(** ** Package [socketeer] *)
Module socketeer.

(** The [Socketeer] struct; [DB] and [WS] are pointers, so what a call does to
    them shows in the struct. *)
Record Socketeer : Type := mkSocketeer {
  DB : db.DB;
  WS : ws.World
}.

(** How a call of [Stop] stands: it returned, the process was ended by
    [log.Fatal], or it is still running nested calls of itself when the
    [fuel] given to the model is used up. *)
Inductive StopResult : Type :=
| Returned (s : Socketeer) (err : option Error)
| Exited (err : Error)
| Unfinished (s : Socketeer).

Section Socketeer.

Variable range : gset ws.Conn → list ws.Conn.
Variable json_Marshal : gmap string string → Error + bytes.
Variable mongo_Connect : string → Error + db.Client.
Variable Client_Ping : db.Client → option Error.
Variable Client_Disconnect : db.Client → db.Client * option Error.

(** [func NewSocketeer(uriString, dbName, collName string)]. *)
Definition NewSocketeer (env : gmap string string)
  (uriString dbName collName : string)
  : Exec (option Socketeer * option Error) :=
  match db.Connect mongo_Connect Client_Ping env uriString dbName collName with
  | Fatal err => Fatal err
  | Normal (_, Some err) => Normal (None, Some err)
  | Normal (d, None) => Normal (Some (mkSocketeer d ws.NewWebSocket), None)
  end.

(** [func (s *Socketeer) Start(keys, host, endpoint)]: the websocket server
    runs in its own goroutine, this call is the feed loop. *)
Definition Start (watch : Error + list (Error + db.D)) (keys : list string)
  (s : Socketeer) : Socketeer * Exec (option Error) :=
  match db.Listen range json_Marshal watch keys (WS s) with
  | (w, Normal (Some err)) => (mkSocketeer (DB s) w, Fatal err)
  | (w, r) => (mkSocketeer (DB s) w, r)
  end.

(** [func (s *Socketeer) Stop() error]: the body disconnects the database and
    stops the websocket hub; at [return nil] the deferred function runs, and
    its first statement is [s.Stop()]. *)
Fixpoint Stop (fuel : nat) (s : Socketeer) : StopResult :=
  match fuel with
  | O => Unfinished s
  | S fuel' =>
      match db.Disconnect Client_Disconnect (DB s) with
      | Fatal err => Exited err
      | Normal (d, _) =>
          let s1 := mkSocketeer d (ws.Stop range (WS s)) in
          match Stop fuel' s1 with
          | Returned s2 _ => Returned s2 None
          | r => r
          end
      end
  end.

End Socketeer.

End socketeer.

(** ** Scenarios *)
Module scenario.
Import ws.

(** A connection is accepted and registered: [websocketHandler] with an
    upgrade that succeeds, up to the point where its read loop waits for the
    first message. *)
Definition register (c : Conn) (w : World) : World :=
  match websocketHandler (inr c) [] w with
  | Normal (w', _) => w'
  | Fatal _ => w
  end.

(** A new hub on which the connections [conns] were registered in turn. *)
Definition registered (conns : list Conn) : World :=
  foldl (λ w c, register c w) NewWebSocket conns.

(** What can happen to a hub: a connection request is handled
    ([websocketHandler]), the read loop of a connection gets further results
    ([handleConnection]), an update is dispatched, the hub is stopped, a peer
    goes away. *)
Inductive Op : Type :=
| OpAccept (upgrade : Error + Conn) (reads : list ReadResult)
| OpHandle (conn : Conn) (reads : list ReadResult)
| OpDispatch (update : bytes)
| OpStop
| OpPeerGone (c : Conn).

Definition run_op (range : gset Conn → list Conn) (op : Op) (w : World)
  : World :=
  match op with
  | OpAccept upgrade reads =>
      match websocketHandler upgrade reads w with
      | Normal (w', _) => w'
      | Fatal _ => w
      end
  | OpHandle conn reads => (handleConnection conn reads w).1
  | OpDispatch update => DispatchUpdate range update w
  | OpStop => Stop range w
  | OpPeerGone c => peer_gone c w
  end.

Definition run (range : gset Conn → list Conn) (ops : list Op) (w : World)
  : World :=
  foldl (λ w op, run_op range op w) w ops.

(** Two subscribers 0 and 1; the peer of 1 has gone away. *)
Definition two_one_gone : World := peer_gone 1 (registered [0; 1]).

(** The updates dispatched in a run, in order. *)
Definition dispatched (ops : list Op) : list bytes :=
  omap (λ op, match op with OpDispatch update => Some update | _ => None end)
       ops.

(** The connections a run asks the hub to accept. *)
Definition accepted (ops : list Op) : list Conn :=
  omap (λ op, match op with
              | OpAccept (inr conn) _ => Some conn
              | _ => None
              end) ops.

End scenario.

(** ** Change records *)
Module feed.
Import db.

(** The resume token every change record starts with. *)
Definition token : string * Value :=
  ("_id", VDocument [("_data", VString "8265A1")]).

Definition ns : string * Value :=
  ("ns", VDocument [("db", VString "app"); ("coll", VString "users")]).

(** An insert record with the full document name, email, age. *)
Definition insert_john : D :=
  [token;
   ("operationType", VString "insert");
   ("fullDocument",
     VDocument [("name", VString "John Doe");
                ("email", VString "x@y.com");
                ("age", VInt32 30)]);
   ns].

(** An update record whose delta changes the email. *)
Definition update_email : D :=
  [token;
   ("operationType", VString "update");
   ns;
   ("updateDescription",
     VDocument [("updatedFields", VDocument [("email", VString "new@y.com")]);
                ("removedFields", VOther "[]")])].

(** An insert record with the full document title, text, extra. *)
Definition insert_titled : D :=
  [token;
   ("operationType", VString "insert");
   ("fullDocument",
     VDocument [("title", VString "A");
                ("text", VString "B");
                ("extra", VString "C")]);
   ns].

(** A delete record. *)
Definition delete_record : D :=
  [token; ("operationType", VString "delete"); ns].

(** An update record whose [updateDescription] is a string, not a
    document: it does not decode into [UpdateEvent]. *)
Definition bad_update : D :=
  [token; ("operationType", VString "update");
   ("updateDescription", VString "oops")].

(** An insert record whose [fullDocument] is a number and comes before
    [operationType]: it does not decode into [CreateEvent]. *)
Definition bad_insert : D :=
  [token; ("fullDocument", VInt32 7); ("operationType", VString "insert")].

(** [json.Marshal] on a [map[string]string] whose keys and values need no
    escaping: the entries sorted by key, each key and each value between
    double quotes. *)
Definition quoted (s : string) : string :=
  let q := Ascii.ascii_of_nat 34 in String q (s +:+ String q "").

Definition json_plain (m : gmap string string) : Error + bytes :=
  inr ("{" +:+
       join "," ((λ kv, quoted kv.1 +:+ ":" +:+ quoted kv.2) <$>
                 merge_sort key_le (map_to_list m)) +:+
       "}").

End feed.

(** ** A driver *)
Module driver.
Import db.

(** [mongo.Connect] reaching the server. *)
Definition Connect_ok (uriString : string) : Error + Client :=
  inr (mkClient uriString true).

(** [client.Ping]: fails on a client that is not connected. *)
Definition Ping (c : Client) : option Error :=
  if connected c then None else Some "client is disconnected".

(** [client.Disconnect]: a connected client is disconnected; on a client
    that is not connected the call fails. *)
Definition Disconnect (c : Client) : Client * option Error :=
  if connected c then (mkClient (uri c) false, None)
  else (c, Some "client is disconnected").

(** The environment of the example program, and the socketeer it builds
    from it. *)
Definition env : gmap string string :=
  {[ "MONGODB_URI" := "mongodb://localhost:27017";
     "MONGODB_DB" := "app";
     "MONGODB_COLLECTION" := "users" ]}.

Definition example_db : DB :=
  mkDB (mkClient "mongodb://localhost:27017" true) "app" ("app", "").

End driver.

(** ** The example program *)
Module example.
Import db socketeer.

(** How a run of [main] stands: it returned, the process was ended, it waits
    for a signal, or it is inside the nested calls of [Stop]. *)
Inductive MainResult : Type :=
| MainReturned
| MainExited (err : Error)
| MainWaiting (s : Socketeer)
| MainUnfinished (s : Socketeer).

Section main.

Variable range : gset ws.Conn → list ws.Conn.
Variable json_Marshal : gmap string string → Error + bytes.
Variable mongo_Connect : string → Error + Client.
Variable Client_Ping : Client → option Error.
Variable Client_Disconnect : Client → Client * option Error.

(** The environment after [godotenv.Load()] has read the variables [file]
    from the .env file: a variable that is already set keeps its value. *)
Definition loaded (os_env file : gmap string string) : gmap string string :=
  os_env ∪ file.

(** [func main()] of the example: [dotenv] is the result of
    [godotenv.Load()], [watch] the change feed that [Start] reads to its
    end, [signal] tells whether a signal arrives afterwards, and [fuel]
    bounds the nested calls of [Stop] that are followed. *)
Definition main (fuel : nat) (os_env : gmap string string)
  (dotenv : Error + gmap string string)
  (watch : Error + list (Error + D)) (signal : bool) : MainResult :=
  match dotenv with
  | inl _ => MainExited "Error loading .env file"
  | inr file =>
      let env := loaded os_env file in
      let uri := Getenv env "MONGODB_URI" in
      let dbName := Getenv env "MONGODB_DB" in
      let collName := Getenv env "MONGODB_COLLECTION" in
      match NewSocketeer mongo_Connect Client_Ping env uri dbName collName
      with
      | Fatal err => MainExited err
      | Normal (_, Some err) => MainExited err
      | Normal (None, None) => MainExited "nil pointer dereference"
      | Normal (Some s, None) =>
          let fields := ["title"; "text"] in
          match Start range json_Marshal watch fields s with
          | (_, Fatal err) => MainExited err
          | (s1, Normal _) =>
              if signal then
                match Stop range Client_Disconnect fuel s1 with
                | Returned _ _ => MainReturned
                | Exited err => MainExited err
                | Unfinished s2 => MainUnfinished s2
                end
              else MainWaiting s1
          end
      end
  end.

End main.

End example.

(** * Properties *)

(** ** The hub: frame lemmas *)

Section ws_facts.
Import ws.

Lemma writable_true w c :
  writable w c = true ↔ (c ∉ closed w) ∧ (c ∉ broken w).
Proof.
  unfold writable. rewrite andb_true_iff, !bool_decide_eq_true. done.
Qed.

Lemma writable_false w c :
  writable w c = false ↔ (c ∈ closed w) ∨ (c ∈ broken w).
Proof.
  unfold writable. rewrite andb_false_iff, !bool_decide_eq_false.
  split; (intros [H|H]; [left|right]); try done;
    try (by apply dec_stable); by intros ?.
Qed.

Lemma received_deliver c c' data w :
  received (deliver c data w) c' =
  if decide (c' = c) then (received w c ++ [data]) else received w c'.
Proof.
  unfold received at 1. simpl. case_decide as E.
  - subst. by rewrite lookup_insert_eq.
  - by rewrite lookup_insert_ne.
Qed.

Lemma WriteMessage_ok c data w :
  writable w c = true →
  WriteMessage c data w = (deliver c data (log (CallWrite c data) w), None).
Proof. unfold WriteMessage. by intros ->. Qed.

Lemma WriteMessage_fails c data w :
  writable w c = false →
  ∃ err, WriteMessage c data w = (log (CallWrite c data) w, Some err).
Proof. unfold WriteMessage. intros ->. by eexists. Qed.

(** A write changes none of the registry, the mutex, and the closed and
    broken sets. *)
Lemma WriteMessage_frame c data w :
  let w' := (WriteMessage c data w).1 in
  clients w' = clients w ∧ clientsMux w' = clientsMux w ∧
  closed w' = closed w ∧ broken w' = broken w.
Proof. unfold WriteMessage. by destruct (writable w c). Qed.

Lemma DispatchUpdate_loop_frame todo update w :
  let w' := DispatchUpdate_loop todo update w in
  clients w' = clients w ∧ clientsMux w' = clientsMux w ∧
  closed w' = closed w ∧ broken w' = broken w.
Proof.
  revert w. induction todo as [|c rest IH]; intros w; simpl; [done|].
  pose proof (WriteMessage_frame c update w) as F. simpl in F.
  destruct (WriteMessage c update w) as [w1 [err|]]; simpl in F; [done|].
  specialize (IH w1). simpl in IH.
  destruct F as (F1 & F2 & F3 & F4), IH as (I1 & I2 & I3 & I4).
  repeat split; congruence.
Qed.

(** When every client still to visit is writable, the loop gives each of
    them the update once, at the end of what it had received, and leaves the
    others alone. *)
Lemma DispatchUpdate_loop_all todo update w :
  NoDup todo →
  (∀ c, c ∈ todo → writable w c = true) →
  ∀ c, received (DispatchUpdate_loop todo update w) c =
       if decide (c ∈ todo) then (received w c ++ [update]) else received w c.
Proof.
  revert w. induction todo as [|a rest IH]; intros w ND Hw c;
    cbn [DispatchUpdate_loop].
  { case_decide as E; [by inversion E | done]. }
  apply NoDup_cons in ND as [Ha ND].
  rewrite WriteMessage_ok by (apply Hw; left).
  set (w1 := deliver a update (log (CallWrite a update) w)).
  assert (Hw1 : ∀ c, c ∈ rest → writable w1 c = true).
  { intros c' Hc'. specialize (Hw c' (list_elem_of_further _ _ _ Hc')).
    by rewrite writable_true in *. }
  rewrite (IH w1 ND Hw1 c). subst w1. rewrite received_deliver.
  unfold received at 2 4. simpl. fold (received w a). fold (received w c).
  destruct (decide (c = a)) as [->|Hne].
  - rewrite (decide_False (P := a ∈ rest)) by done.
    rewrite (decide_True (P := a ∈ a :: rest)) by left. done.
  - destruct (decide (c ∈ rest)) as [Hin|Hout].
    + rewrite (decide_True (P := c ∈ a :: rest)) by (by right). done.
    + rewrite (decide_False (P := c ∈ a :: rest)); [done|].
      by intros [?|?]%elem_of_cons.
Qed.

Lemma range_ok_elem range s c : range_ok range → c ∈ range s ↔ c ∈ s.
Proof. intros H. rewrite (H s). apply elem_of_elements. Qed.

Lemma range_ok_NoDup range s : range_ok range → NoDup (range s).
Proof. intros H. rewrite (H s). apply NoDup_elements. Qed.

Lemma received_set_mux b w c : received (set_mux b w) c = received w c.
Proof. done. Qed.

(** The trace of the dispatch loop: one write per client visited, with the
    mutex as the loop found it. *)
Lemma DispatchUpdate_loop_trace todo update w :
  ∃ visited,
    visited `prefix_of` todo ∧
    trace (DispatchUpdate_loop todo update w) =
    trace w ++ ((λ c, (clientsMux w, CallWrite c update)) <$> visited).
Proof.
  revert w. induction todo as [|c rest IH]; intros w; cbn [DispatchUpdate_loop].
  { exists []. split; [done|]. by rewrite app_nil_r. }
  pose proof (WriteMessage_frame c update w) as (_ & Fm & _ & _).
  unfold WriteMessage in *. destruct (writable w c).
  - destruct (IH (deliver c update (log (CallWrite c update) w)))
      as (visited & Hpre & ->).
    exists (c :: visited). split; [by apply prefix_cons|].
    simpl. by rewrite <- app_assoc.
  - exists [c]. split; [|done]. apply prefix_cons, prefix_nil.
Qed.

Lemma DispatchUpdate_loop_trace_all todo update w :
  (∀ c, c ∈ todo → writable w c = true) →
  trace (DispatchUpdate_loop todo update w) =
  trace w ++ ((λ c, (clientsMux w, CallWrite c update)) <$> todo).
Proof.
  revert w. induction todo as [|c rest IH]; intros w Hw;
    cbn [DispatchUpdate_loop].
  { by rewrite app_nil_r. }
  rewrite WriteMessage_ok by (apply Hw; left).
  rewrite IH.
  - simpl. by rewrite <- app_assoc.
  - intros c' Hc'. specialize (Hw c' (list_elem_of_further _ _ _ Hc')).
    by rewrite writable_true in *.
Qed.

(** The loop of [Stop]. *)
Lemma Stop_loop_frame todo w :
  let w' := foldl (λ acc client, Close client acc) w todo in
  clients w' = clients w ∧ clientsMux w' = clientsMux w ∧
  closed w' = list_to_set todo ∪ closed w ∧ broken w' = broken w ∧
  delivered w' = delivered w ∧
  trace w' = trace w ++ ((λ c, (clientsMux w, CallClose c)) <$> todo).
Proof.
  revert w. induction todo as [|c rest IH]; intros w; simpl.
  { repeat split; try done; [set_solver | by rewrite app_nil_r]. }
  destruct (IH (Close c w)) as (I1 & I2 & I3 & I4 & I5 & I6).
  simpl in *. repeat split; try done.
  - rewrite I3. set_solver.
  - rewrite I6. simpl. by rewrite <- app_assoc.
Qed.

(** Registration. *)
Lemma register_frame c w :
  let w' := scenario.register c w in
  clients w' = {[c]} ∪ clients w ∧ clientsMux w' = false ∧
  closed w' = closed w ∧ broken w' = broken w ∧
  delivered w' = delivered w.
Proof. done. Qed.

Lemma registered_from conns w :
  let w' := foldl (λ w c, scenario.register c w) w conns in
  clients w' = list_to_set conns ∪ clients w ∧
  closed w' = closed w ∧ broken w' = broken w ∧
  delivered w' = delivered w.
Proof.
  revert w. induction conns as [|c rest IH]; intros w; simpl.
  { repeat split; try done. set_solver. }
  destruct (IH (scenario.register c w)) as (I1 & I2 & I3 & I4).
  destruct (register_frame c w) as (R1 & _ & R2 & R3 & R4).
  simpl in *. repeat split; try congruence.
  rewrite I1. set_solver.
Qed.

Lemma registered_fresh conns :
  let w := scenario.registered conns in
  (∀ c, c ∈ clients w ↔ c ∈ conns) ∧
  (∀ c, writable w c = true) ∧ (∀ c, received w c = []).
Proof.
  destruct (registered_from conns NewWebSocket) as (I1 & I2 & I3 & I4).
  simpl in *. fold (scenario.registered conns) in *.
  split; [|split].
  - intros c. rewrite I1. set_solver.
  - intros c. apply (proj2 (writable_true _ _)). rewrite I2, I3. set_solver.
  - intros c. unfold received. by rewrite I4.
Qed.

(** A connection that does not take writes gets nothing from the loop. *)
Lemma DispatchUpdate_loop_unwritable todo update w c :
  writable w c = false →
  received (DispatchUpdate_loop todo update w) c = received w c.
Proof.
  revert w. induction todo as [|a rest IH]; intros w Hc;
    cbn [DispatchUpdate_loop]; [done|].
  unfold WriteMessage. destruct (writable w a) eqn:Ha; [|done].
  rewrite IH.
  - rewrite received_deliver. case_decide as E; [|done].
    subst. congruence.
  - rewrite writable_false in *. done.
Qed.

Lemma DispatchUpdate_frame range update w :
  let w' := DispatchUpdate range update w in
  clients w' = clients w ∧ clientsMux w' = false ∧
  closed w' = closed w ∧ broken w' = broken w.
Proof.
  unfold DispatchUpdate.
  destruct (DispatchUpdate_loop_frame (range (clients (Lock w))) update
              (Lock w)) as (F1 & F2 & F3 & F4).
  simpl in *. done.
Qed.

Lemma DispatchUpdate_unwritable range update w c :
  writable w c = false →
  received (DispatchUpdate range update w) c = received w c.
Proof.
  intros Hc. unfold DispatchUpdate, Unlock. rewrite received_set_mux.
  by rewrite DispatchUpdate_loop_unwritable.
Qed.

Lemma Stop_frame range w :
  let w' := Stop range w in
  clients w' = ∅ ∧ clientsMux w' = false ∧
  closed w' = list_to_set (range (clients w)) ∪ closed w ∧
  broken w' = broken w ∧ delivered w' = delivered w ∧
  trace w' = trace w ++ ((λ c, (true, CallClose c)) <$> range (clients w))
                     ++ [(true, MapReset)].
Proof.
  unfold Stop.
  destruct (Stop_loop_frame (range (clients (Lock w))) (Lock w))
    as (F1 & F2 & F3 & F4 & F5 & F6).
  simpl in *. split_and!; try done.
  rewrite F2, F6. by rewrite <- app_assoc.
Qed.

(** The read loop and the handler: what they change and what they add to
    the trace. *)
Lemma handleConnection_loop_frame conn reads w :
  let w' := (handleConnection_loop conn reads w).1 in
  clients w' ⊆ clients w ∧ closed w' = closed w ∧ broken w' = broken w ∧
  delivered w' = delivered w ∧
  (clientsMux w = false →
   clientsMux w' = false ∧
   ∃ added, trace w' = trace w ++ added ∧
            changes_locked added ∧ io_unlocked added).
Proof.
  revert w. induction reads as [|[msgType msg|err] rest IH]; intros w; simpl.
  - split_and!; try done. intros Hm. split; [done|].
    exists []. split; [by rewrite app_nil_r|]. split; constructor.
  - destruct (IH (log (CallRead conn) w)) as (I1 & I2 & I3 & I4 & I5).
    simpl in *. split_and!; try done.
    intros Hm. destruct (I5 Hm) as (Hm' & added & -> & Hch & Hio).
    split; [done|].
    exists ((clientsMux w, CallRead conn) :: added).
    split; [by rewrite <- app_assoc|].
    rewrite Hm. split; by constructor.
  - split_and!; try done; [set_solver|].
    intros Hm. split; [done|].
    exists [(clientsMux w, CallRead conn); (true, MapDelete conn)].
    split; [by rewrite <- app_assoc|].
    rewrite Hm. split; by repeat constructor.
Qed.

Lemma handleConnection_frame conn reads w :
  let w' := (handleConnection conn reads w).1 in
  clients w' ⊆ clients w ∧ closed w ⊆ closed w' ∧ broken w' = broken w ∧
  delivered w' = delivered w ∧
  (clientsMux w = false →
   clientsMux w' = false ∧
   ∃ added, trace w' = trace w ++ added ∧
            changes_locked added ∧ io_unlocked added).
Proof.
  unfold handleConnection.
  pose proof (handleConnection_loop_frame conn reads w) as F. simpl in F.
  destruct (handleConnection_loop conn reads w) as [w1 [|]]; simpl in *;
    destruct F as (F1 & F2 & F3 & F4 & F5).
  - split_and!; try done; try set_solver.
    intros Hm. destruct (F5 Hm) as (Hm' & added & -> & Hch & Hio).
    split; [done|].
    exists (added ++ [(true, MapDelete conn); (false, CallClose conn)]).
    split; [by rewrite <- !app_assoc|].
    split; (apply Forall_app; split; [done|]); by repeat constructor.
  - split_and!; try done; try set_solver.
Qed.

Lemma websocketHandler_frame conn reads w w' left_loop :
  websocketHandler (inr conn) reads w = Normal (w', left_loop) →
  clients w' ⊆ {[conn]} ∪ clients w ∧ closed w ⊆ closed w' ∧
  broken w' = broken w ∧ delivered w' = delivered w ∧
  clientsMux w' = false ∧
  ∃ added, trace w' = trace w ++ added ∧
           changes_locked added ∧ io_unlocked added.
Proof.
  unfold websocketHandler. intros [= E].
  pose proof (handleConnection_frame conn reads
                (Unlock (map_insert conn (Lock w)))) as F.
  cbv zeta in F. rewrite E in F. simpl in F.
  destruct F as (F1 & F2 & F3 & F4 & F5).
  destruct (F5 eq_refl) as (Hm & added & Hc & Hch & Hio).
  split_and!; try done.
  exists ((true, MapInsert conn) :: added).
  split; [by rewrite Hc, <- app_assoc|].
  split; by constructor.
Qed.

End ws_facts.

(** ** The hub: dispatch, lock discipline and shutdown *)

Section ws_claims.
Import ws scenario.

(** A read error ends the read loop, and the connection is then out of the
    registry and closed. *)
Lemma handleConnection_read_error conn reads w :
  (∃ err, ReadErr err ∈ reads) →
  let r := handleConnection conn reads w in
  r.2 = true ∧ (conn ∉ clients r.1) ∧ (conn ∈ closed r.1).
Proof.
  intros Herr. unfold handleConnection.
  assert (L : (handleConnection_loop conn reads w).2 = true).
  { revert w. induction reads as [|[msgType msg|err] rest IH]; intros w; simpl.
    - destruct Herr as [err Herr]. inversion Herr.
    - apply IH. destruct Herr as [err Herr].
      apply elem_of_cons in Herr as [?|?]; [done|by exists err].
    - done. }
  destruct (handleConnection_loop conn reads w) as [w1 b]. simpl in L.
  subst b. simpl. split_and!; [done|set_solver|set_solver].
Qed.

(** Once a connection is closed it stays closed and receives nothing more,
    whatever happens to the hub. *)
Lemma run_op_closed range op w c :
  c ∈ closed w →
  c ∈ closed (run_op range op w) ∧
  received (run_op range op w) c = received w c.
Proof.
  intros Hc. destruct op as [[err|conn] reads|conn reads|update| |c'];
    cbn [run_op].
  - done.
  - destruct (websocketHandler (inr conn) reads w) as [[w' b]|e] eqn:W;
      [|done].
    apply websocketHandler_frame in W as (_ & F2 & _ & F4 & _).
    split; [set_solver|]. unfold received. by rewrite F4.
  - destruct (handleConnection_frame conn reads w) as (_ & F2 & _ & F4 & _).
    split; [set_solver|]. unfold received. by rewrite F4.
  - destruct (DispatchUpdate_frame range update w) as (_ & _ & F3 & _).
    split; [congruence|].
    apply DispatchUpdate_unwritable, writable_false. by left.
  - destruct (Stop_frame range w) as (_ & _ & F3 & _ & F5 & _).
    split; [rewrite F3; set_solver|]. unfold received. by rewrite F5.
  - done.
Qed.

Lemma run_closed range ops w c :
  c ∈ closed w →
  c ∈ closed (run range ops w) ∧ received (run range ops w) c = received w c.
Proof.
  revert w. induction ops as [|op ops IH]; intros w Hc; [done|].
  destruct (run_op_closed range op w c Hc) as [Hc' Hr].
  destruct (IH _ Hc') as [Hc'' Hr']. split; [done|].
  unfold run in *. simpl. congruence.
Qed.

(** C1, as the code has it: a dispatch never touches the registry.  A
    subscriber whose write fails is still registered after the dispatch,
    still fails, and is visited again by the next dispatch, whatever the
    order of the range.  It leaves the registry when its read loop meets an
    error, or when the hub is stopped. *)
Theorem dispatch_leaves_registry range update w c :
  range_ok range →
  c ∈ clients w →
  writable w c = false →
  let w' := DispatchUpdate range update w in
  clients w' = clients w ∧ c ∈ clients w' ∧ c ∈ range (clients w') ∧
  writable w' c = false ∧
  (∀ reads, (∃ err, ReadErr err ∈ reads) →
            c ∉ clients (handleConnection c reads w').1) ∧
  c ∉ clients (Stop range w').
Proof.
  intros Hr Hc Hw.
  destruct (DispatchUpdate_frame range update w) as (F1 & _ & F3 & F4).
  cbv zeta. split_and!; [done|by rewrite F1| | | |].
  - apply range_ok_elem; [done|]. by rewrite F1.
  - apply (proj2 (writable_false _ _)). rewrite F3, F4.
    by apply (proj1 (writable_false _ _)).
  - intros reads Herr.
    by destruct (handleConnection_read_error c reads
                   (DispatchUpdate range update w) Herr) as (_ & ? & _).
  - destruct (Stop_frame range (DispatchUpdate range update w)) as (-> & _).
    set_solver.
Qed.

(** On the hub with subscribers 0 and 1 where the peer of 1 is gone. *)
Lemma dispatch_leaves_registry_witness :
  let w' := DispatchUpdate elements "p" two_one_gone in
  clients w' = clients two_one_gone ∧ 1 ∈ clients w' ∧
  1 ∈ elements (clients w') ∧ writable w' 1 = false ∧
  (∀ reads, (∃ err, ReadErr err ∈ reads) →
            1 ∉ clients (handleConnection 1 reads w').1) ∧
  1 ∉ clients (Stop elements w').
Proof.
  apply (dispatch_leaves_registry elements "p" two_one_gone 1).
  - intros s. reflexivity.
  - vm_compute. reflexivity.
  - vm_compute. reflexivity.
Defined.

(** C1, as the claim words it, fails.  Subscribers 0 and 1 are registered
    and the peer of 1 is gone; the range visits 1 first.  The write to 1
    fails; subscriber 0, whose write would succeed, gets nothing, and 1 is
    still registered, after this dispatch and after the next one. *)
Lemma dispatch_failure_counterexample :
  let w := two_one_gone in
  let w' := DispatchUpdate elements "p" w in
  let w'' := DispatchUpdate elements "q" w' in
  range_ok elements ∧ elements (clients w) = [1; 0] ∧
  writable w 1 = false ∧ writable w 0 = true ∧
  received w' 0 = [] ∧ elements (clients w') = [1; 0] ∧
  received w'' 0 = [] ∧ elements (clients w'') = [1; 0].
Proof.
  split; [by intros s|]. vm_compute. done.
Qed.

(** C2: one dispatch to subscribers that all take the write gives each of
    them the update exactly once: it is appended once to what the subscriber
    had received, one write call is made per subscriber, and nobody else
    receives anything.  In particular this holds after registering any
    connections on a new hub.  The order of the range does not matter. *)
Theorem dispatch_each_exactly_once range update :
  range_ok range →
  (∀ w, (∀ c, c ∈ clients w → writable w c = true) →
        let w' := DispatchUpdate range update w in
        (∀ c, c ∈ clients w → received w' c = received w c ++ [update]) ∧
        (∀ c, c ∉ clients w → received w' c = received w c) ∧
        (∃ order, order ≡ₚ elements (clients w) ∧
           trace w' =
           trace w ++ ((λ c, (true, CallWrite c update)) <$> order))) ∧
  (∀ conns c, c ∈ conns →
        received (DispatchUpdate range update (registered conns)) c =
        [update]).
Proof.
  intros Hr.
  assert (G : ∀ w, (∀ c, c ∈ clients w → writable w c = true) →
        let w' := DispatchUpdate range update w in
        (∀ c, c ∈ clients w → received w' c = received w c ++ [update]) ∧
        (∀ c, c ∉ clients w → received w' c = received w c) ∧
        (∃ order, order ≡ₚ elements (clients w) ∧
           trace w' =
           trace w ++ ((λ c, (true, CallWrite c update)) <$> order))).
  { intros w Hw. simpl.
    assert (Hw' : ∀ c, c ∈ range (clients (Lock w)) →
                       writable (Lock w) c = true).
    { intros c Hc. apply (range_ok_elem range) in Hc; [|done]. by apply Hw. }
    assert (R : ∀ c, received (DispatchUpdate range update w) c =
                     if decide (c ∈ range (clients w))
                     then (received w c ++ [update]) else received w c).
    { intros c. unfold DispatchUpdate, Unlock. rewrite received_set_mux.
      rewrite DispatchUpdate_loop_all; [done| |done].
      by apply range_ok_NoDup. }
    split_and!.
    - intros c Hc. rewrite R, decide_True; [done|]. by apply range_ok_elem.
    - intros c Hc. rewrite R, decide_False; [done|].
      by rewrite range_ok_elem.
    - exists (range (clients w)). split; [apply Hr|].
      unfold DispatchUpdate. simpl.
      by rewrite DispatchUpdate_loop_trace_all. }
  split; [exact G|].
  intros conns c Hc.
  destruct (registered_fresh conns) as (M & W & E). simpl in *.
  destruct (G (registered conns)) as (G1 & _); [by intros|].
  rewrite G1 by (by apply M). by rewrite E.
Qed.

(** Three subscribers registered on a new hub, one dispatch. *)
Lemma dispatch_each_exactly_once_witness :
  received (DispatchUpdate elements "p" (registered [0; 1; 2])) 1 = ["p"].
Proof.
  apply (proj2 (dispatch_each_exactly_once elements "p"
                  (λ s, reflexivity (elements s)))).
  apply (bool_decide_unpack _). vm_compute. exact I.
Defined.

(** C3, as the code has it.  In every operation the changes of [clients]
    are made with the lock held.  The add path ([websocketHandler]) and the
    remove path ([handleConnection]) hold the lock around those changes
    only: every network call they make is made with the lock free.
    [DispatchUpdate] and [Stop] take the lock on entry and give it back on
    return: [DispatchUpdate] adds to the trace nothing but writes, each made
    under the lock, and [Stop] one close per client, each made under the
    lock, before it resets the map. *)
Theorem lock_discipline range :
  (∀ conn reads w w' left_loop,
     websocketHandler (inr conn) reads w = Normal (w', left_loop) →
     clientsMux w' = false ∧
     ∃ added, trace w' = trace w ++ added ∧
              changes_locked added ∧ io_unlocked added) ∧
  (∀ conn reads w,
     clientsMux w = false →
     clientsMux (handleConnection conn reads w).1 = false ∧
     ∃ added, trace (handleConnection conn reads w).1 = trace w ++ added ∧
              changes_locked added ∧ io_unlocked added) ∧
  (∀ update w,
     clientsMux (DispatchUpdate range update w) = false ∧
     ∃ added, trace (DispatchUpdate range update w) = trace w ++ added ∧
              Forall (λ he, he.1 = true ∧ is_write he.2 = true) added) ∧
  (∀ w,
     clientsMux (Stop range w) = false ∧
     ∃ closes,
       trace (Stop range w) = trace w ++ closes ++ [(true, MapReset)] ∧
       Forall (λ he, he.1 = true ∧ is_close he.2 = true) closes ∧
       length closes = length (range (clients w))).
Proof.
  split_and!.
  - intros conn reads w w' b W.
    by apply websocketHandler_frame in W as (_ & _ & _ & _ & Hm & Hadd).
  - intros conn reads w Hm.
    destruct (handleConnection_frame conn reads w) as (_ & _ & _ & _ & F).
    by apply F.
  - intros update w. split; [done|].
    unfold DispatchUpdate.
    destruct (DispatchUpdate_loop_trace (range (clients (Lock w))) update
                (Lock w)) as (visited & _ & Hc).
    eexists. split; [exact Hc|].
    apply Forall_fmap, Forall_forall; by intros.
  - intros w.
    destruct (Stop_frame range w) as (_ & Hm & _ & _ & _ & Hc).
    split; [done|]. eexists. split; [exact Hc|].
    split; [|by rewrite length_fmap].
    apply Forall_fmap, Forall_forall; by intros.
Qed.

(** The read loop of subscriber 0 meets an error. *)
Lemma lock_discipline_witness :
  clientsMux (handleConnection 0 [ReadErr "EOF"] (registered [0; 1])).1 =
  false ∧
  ∃ added,
    trace (handleConnection 0 [ReadErr "EOF"] (registered [0; 1])).1 =
    trace (registered [0; 1]) ++ added ∧
    changes_locked added ∧ io_unlocked added.
Proof.
  apply (proj1 (proj2 (lock_discipline elements))). reflexivity.
Defined.

(** C3, as the claim words it, fails on the dispatch path and on the clear
    path: with one subscriber registered, the write of [DispatchUpdate] and
    the close of [Stop] are both made while [clientsMux] is held. *)
Lemma io_under_lock_counterexample :
  let w := registered [0] in
  clientsMux w = false ∧ io_unlocked (trace w) ∧
  trace (DispatchUpdate elements "p" w) =
    trace w ++ [(true, CallWrite 0 "p")] ∧
  ¬ io_unlocked (trace (DispatchUpdate elements "p" w)) ∧
  trace (Stop elements w) =
    trace w ++ [(true, CallClose 0); (true, MapReset)] ∧
  ¬ io_unlocked (trace (Stop elements w)).
Proof.
  assert (Ed : trace (DispatchUpdate elements "p" (registered [0])) =
               trace (registered [0]) ++ [(true, CallWrite 0 "p")])
    by (vm_compute; reflexivity).
  assert (Es : trace (Stop elements (registered [0])) =
               trace (registered [0]) ++
               [(true, CallClose 0); (true, MapReset)])
    by (vm_compute; reflexivity).
  cbv zeta. rewrite Ed, Es. split_and!; try done.
  - by repeat constructor.
  - intros H. apply Forall_app in H as [_ H].
    apply Forall_cons in H as [H _]. by specialize (H eq_refl).
  - intros H. apply Forall_app in H as [_ H].
    apply Forall_cons in H as [H _]. by specialize (H eq_refl).
Qed.

(** C8: after [Stop] the registry is empty, every connection that was
    registered is closed, and whatever happens to the hub afterwards
    (dispatches, new connections, read loops ending, further stops) none of
    them receives anything more. *)
Theorem Stop_clears_and_closes range w :
  range_ok range →
  let w' := Stop range w in
  clients w' = ∅ ∧
  (∀ c, c ∈ clients w → c ∈ closed w' ∧ writable w' c = false) ∧
  (∀ update c, received (DispatchUpdate range update w') c = received w c) ∧
  (∀ ops c, c ∈ clients w → received (run range ops w') c = received w c).
Proof.
  intros Hr. cbv zeta.
  destruct (Stop_frame range w) as (F1 & _ & F3 & _ & F5 & _).
  assert (Hcl : ∀ c, c ∈ clients w → c ∈ closed (Stop range w)).
  { intros c Hc. rewrite F3. apply elem_of_union_l, elem_of_list_to_set.
    by apply range_ok_elem. }
  assert (Hrec : ∀ c, received (Stop range w) c = received w c).
  { intros c. unfold received. by rewrite F5. }
  split_and!.
  - done.
  - intros c Hc. split; [by apply Hcl|].
    apply (proj2 (writable_false _ _)). left. by apply Hcl.
  - intros update c. rewrite <- Hrec.
    destruct (decide (c ∈ closed (Stop range w))) as [Hc|Hc].
    + apply DispatchUpdate_unwritable, writable_false. by left.
    + assert (E : range ∅ = []).
      { apply Permutation_nil_r. rewrite (Hr ∅). by rewrite elements_empty. }
      unfold DispatchUpdate. cbv zeta.
      change (clients (Lock (Stop range w))) with (clients (Stop range w)).
      by rewrite F1, E.
  - intros ops c Hc. rewrite <- Hrec. by apply run_closed, Hcl.
Qed.

(** The hub with subscribers 0 and 1 is stopped. *)
Lemma Stop_clears_and_closes_witness :
  let w := registered [0; 1] in
  let w' := Stop elements w in
  clients w' = ∅ ∧
  (∀ c, c ∈ clients w → c ∈ closed w' ∧ writable w' c = false) ∧
  (∀ update c, received (DispatchUpdate elements update w') c = received w c) ∧
  (∀ ops c, c ∈ clients w → received (run elements ops w') c = received w c).
Proof.
  apply (Stop_clears_and_closes elements (registered [0; 1])).
  intros s. reflexivity.
Defined.

End ws_claims.

(** ** The projection *)

Section db_facts.
Import db.

(** The inner loop over the configured keys. *)
Lemma project_keys_lookup (acc : gmap string string) key value keys k :
  foldl (λ responseMap k',
           if decide (key = k')
           then <[key := Sprintf_v value]> responseMap
           else responseMap) acc keys !! k =
  if decide (k = key ∧ key ∈ keys) then Some (Sprintf_v value) else acc !! k.
Proof.
  revert acc. induction keys as [|k' keys IH]; intros acc; simpl.
  { rewrite decide_False; [done|]. intros [_ H]. inversion H. }
  rewrite IH. destruct (decide (key = k')) as [<-|Hne].
  - destruct (decide (k = key)) as [->|Hk].
    + rewrite lookup_insert_eq.
      rewrite (decide_True (P := key = key ∧ key ∈ key :: keys));
        [|split; [done|left]].
      by case_decide.
    + rewrite lookup_insert_ne by done.
      rewrite !decide_False; [done| |]; by intros [? _].
  - destruct (decide (k = key ∧ key ∈ keys)) as [[-> Hin]|Hn].
    + rewrite decide_True; [done|]. split; [done|by right].
    + rewrite decide_False; [done|]. intros [-> Hin].
      apply elem_of_cons in Hin as [?|?]; [done|]. by apply Hn.
Qed.

(** The two loops together, on entries with distinct keys. *)
Lemma project_from_lookup entries keys (acc : gmap string string) k :
  NoDup entries.*1 →
  foldl (λ responseMap kv,
           foldl (λ responseMap k',
                    if decide (kv.1 = k')
                    then <[kv.1 := Sprintf_v kv.2]> responseMap
                    else responseMap)
                 responseMap keys) acc entries !! k =
  match (list_to_map entries : M) !! k with
  | Some v => if decide (k ∈ keys) then Some (Sprintf_v v) else acc !! k
  | None => acc !! k
  end.
Proof.
  revert acc. induction entries as [|[key value] rest IH]; intros acc ND;
    simpl; [done|].
  apply NoDup_cons in ND as [Hkey ND].
  rewrite IH by done. rewrite project_keys_lookup.
  destruct (decide (k = key)) as [->|Hk].
  - rewrite lookup_insert_eq.
    rewrite (not_elem_of_list_to_map_1 _ _ Hkey).
    destruct (decide (key ∈ keys)) as [Hin|Hout].
    + by rewrite decide_True.
    + rewrite decide_False; [done|]. by intros [_ ?].
  - rewrite lookup_insert_ne by done.
    rewrite (decide_False (P := k = key ∧ key ∈ keys)); [done|].
    by intros [? _].
Qed.

(** The projection of a source map: a configured key present in the source
    is mapped to the text of its value, every other key is absent. *)
Lemma project_lookup (m : M) keys k :
  project (map_to_list m) keys !! k =
  if decide (k ∈ keys) then Sprintf_v <$> m !! k else None.
Proof.
  unfold project. rewrite project_from_lookup by apply NoDup_fst_map_to_list.
  rewrite list_to_map_to_list, lookup_empty.
  destruct (m !! k); by case_decide.
Qed.

(** The order in which [range] gives the entries of the source map does not
    change the projection. *)
Lemma project_order (m : M) keys entries :
  entries ≡ₚ map_to_list m →
  project entries keys = project (map_to_list m) keys.
Proof.
  intros Hp. apply map_eq. intros k. rewrite project_lookup.
  unfold project. rewrite project_from_lookup.
  - rewrite (list_to_map_proper (K := string) entries (map_to_list m) );
      [|by rewrite Hp; apply NoDup_fst_map_to_list|done].
    rewrite list_to_map_to_list, lookup_empty.
    destruct (m !! k); by case_decide.
  - rewrite Hp. apply NoDup_fst_map_to_list.
Qed.

(** *** Decoding a well-formed record *)

(** In a document with distinct keys an element is the only one under its
    key. *)
Lemma unique_value (d : D) k v v' :
  NoDup d.*1 → (k, v) ∈ d → (k, v') ∈ d → v = v'.
Proof.
  intros ND H1 H2.
  apply (elem_of_list_to_map (M := gmap string)) in H1, H2; try done.
  congruence.
Qed.

Lemma decode_UpdateDescription_ok (ud : D) delta cur :
  NoDup ud.*1 →
  ("updatedFields", VDocument delta) ∈ ud →
  decode_UpdateDescription ud cur = (fill cur delta, None).
Proof.
  intros ND Hin.
  assert (G : ∀ d m, NoDup d.*1 →
            (∀ v, ("updatedFields", v) ∈ d → v = VDocument delta) →
            decode_UpdateDescription d m =
            (if decide ("updatedFields" ∈ d.*1)
             then fill m delta else m, None)).
  { clear. induction d as [|[k v] rest IH]; intros m ND Hv;
      cbn [decode_UpdateDescription]; [done|].
    rewrite fmap_cons in ND |- *. cbn [fst] in ND |- *.
    apply NoDup_cons in ND as [Hk ND'].
    assert (Hv' : ∀ v, ("updatedFields", v) ∈ rest → v = VDocument delta)
      by (intros v' ?; apply Hv; by right).
    destruct (decide (k = "updatedFields")) as [Ek|Ek].
    - subst k. rewrite (Hv v) by left. cbn [decode_M]. rewrite IH by done.
      rewrite decide_False by done.
      rewrite decide_True; [done|]. left.
    - rewrite IH by done. f_equal. apply decide_ext.
      rewrite elem_of_cons. naive_solver. }
  rewrite G; [|done|].
  - rewrite decide_True; [done|].
    apply list_elem_of_fmap. by exists ("updatedFields", VDocument delta).
  - intros v Hv. exact (unique_value ud _ _ _ ND Hv Hin).
Qed.

Lemma Unmarshal_UpdateEvent_ok temp ud delta :
  update_record temp ud delta →
  Unmarshal_UpdateEvent temp UpdateEvent_zero =
  (mkUpdateEvent "update" (fill ∅ delta), None).
Proof.
  intros (ND & Hop & Hud & NDud & Hdelta).
  assert (G : ∀ d cur, NoDup d.*1 →
    (∀ v, ("operationType", v) ∈ d → v = VString "update") →
    (∀ v, ("updateDescription", v) ∈ d → v = VDocument ud) →
    Unmarshal_UpdateEvent d cur =
    (mkUpdateEvent
       (if decide ("operationType" ∈ d.*1)
        then "update" else u_OperationType cur)
       (if decide ("updateDescription" ∈ d.*1)
        then fill (u_UpdatedFields cur) delta else u_UpdatedFields cur),
     None)).
  { clear ND Hop Hud temp.
    induction d as [|[k v] rest IH]; intros cur ND Ho Hu;
      cbn [Unmarshal_UpdateEvent]; [by destruct cur|].
    rewrite fmap_cons in ND |- *. cbn [fst] in ND |- *.
    apply NoDup_cons in ND as [Hk ND'].
    assert (Ho' : ∀ v, ("operationType", v) ∈ rest → v = VString "update")
      by (intros v' ?; apply Ho; by right).
    assert (Hu' : ∀ v, ("updateDescription", v) ∈ rest → v = VDocument ud)
      by (intros v' ?; apply Hu; by right).
    assert (Hcons : ∀ key, key ≠ k → key ∈ k :: rest.*1 ↔ key ∈ rest.*1).
    { intros key Hne. rewrite elem_of_cons. naive_solver. }
    destruct (decide (k = "operationType")) as [Ek|Ek];
      [|destruct (decide (k = "updateDescription")) as [Ek'|Ek']].
    - subst k. rewrite (Ho v) by left. cbn [decode_M decode_string u_OperationType u_UpdatedFields
           c_OperationType c_FullDocument].
      rewrite IH by done. cbn [decode_M decode_string u_OperationType u_UpdatedFields
           c_OperationType c_FullDocument].
      rewrite (decide_False (P := "operationType" ∈ rest.*1)) by done.
      rewrite (decide_True (P := "operationType" ∈ _ :: rest.*1)) by left.
      do 2 f_equal. apply decide_ext. symmetry. by apply Hcons.
    - subst k. rewrite (Hu v) by left.
      rewrite (decode_UpdateDescription_ok ud delta) by done.
      rewrite IH by done. cbn [decode_M decode_string u_OperationType u_UpdatedFields
           c_OperationType c_FullDocument].
      rewrite (decide_False (P := "updateDescription" ∈ rest.*1)) by done.
      rewrite (decide_True (P := "updateDescription" ∈ _ :: rest.*1))
        by left.
      do 2 f_equal. apply decide_ext. symmetry. by apply Hcons.
    - rewrite IH by done. do 2 f_equal; apply decide_ext; symmetry;
        by apply Hcons. }
  rewrite G; [|done| |].
  - rewrite !decide_True; [done| |].
    + apply list_elem_of_fmap. by exists ("updateDescription", VDocument ud).
    + apply list_elem_of_fmap. by exists ("operationType", VString "update").
  - intros v Hv. exact (unique_value temp _ _ _ ND Hv Hop).
  - intros v Hv. exact (unique_value temp _ _ _ ND Hv Hud).
Qed.

Lemma Unmarshal_CreateEvent_ok temp doc :
  insert_record temp doc →
  Unmarshal_CreateEvent temp CreateEvent_zero =
  (mkCreateEvent "insert" (fill ∅ doc), None).
Proof.
  intros (ND & Hop & Hdoc).
  assert (G : ∀ d cur, NoDup d.*1 →
    (∀ v, ("operationType", v) ∈ d → v = VString "insert") →
    (∀ v, ("fullDocument", v) ∈ d → v = VDocument doc) →
    Unmarshal_CreateEvent d cur =
    (mkCreateEvent
       (if decide ("operationType" ∈ d.*1)
        then "insert" else c_OperationType cur)
       (if decide ("fullDocument" ∈ d.*1)
        then fill (c_FullDocument cur) doc else c_FullDocument cur),
     None)).
  { clear ND Hop Hdoc temp.
    induction d as [|[k v] rest IH]; intros cur ND Ho Hu;
      cbn [Unmarshal_CreateEvent]; [by destruct cur|].
    rewrite fmap_cons in ND |- *. cbn [fst] in ND |- *.
    apply NoDup_cons in ND as [Hk ND'].
    assert (Ho' : ∀ v, ("operationType", v) ∈ rest → v = VString "insert")
      by (intros v' ?; apply Ho; by right).
    assert (Hu' : ∀ v, ("fullDocument", v) ∈ rest → v = VDocument doc)
      by (intros v' ?; apply Hu; by right).
    assert (Hcons : ∀ key, key ≠ k → key ∈ k :: rest.*1 ↔ key ∈ rest.*1).
    { intros key Hne. rewrite elem_of_cons. naive_solver. }
    destruct (decide (k = "operationType")) as [Ek|Ek];
      [|destruct (decide (k = "fullDocument")) as [Ek'|Ek']].
    - subst k. rewrite (Ho v) by left. cbn [decode_M decode_string u_OperationType u_UpdatedFields
           c_OperationType c_FullDocument].
      rewrite IH by done. cbn [decode_M decode_string u_OperationType u_UpdatedFields
           c_OperationType c_FullDocument].
      rewrite (decide_False (P := "operationType" ∈ rest.*1)) by done.
      rewrite (decide_True (P := "operationType" ∈ _ :: rest.*1)) by left.
      do 2 f_equal. apply decide_ext. symmetry. by apply Hcons.
    - subst k. rewrite (Hu v) by left. cbn [decode_M decode_string u_OperationType u_UpdatedFields
           c_OperationType c_FullDocument].
      rewrite IH by done. cbn [decode_M decode_string u_OperationType u_UpdatedFields
           c_OperationType c_FullDocument].
      rewrite (decide_False (P := "fullDocument" ∈ rest.*1)) by done.
      rewrite (decide_True (P := "fullDocument" ∈ _ :: rest.*1)) by left.
      do 2 f_equal. apply decide_ext. symmetry. by apply Hcons.
    - rewrite IH by done. do 2 f_equal; apply decide_ext; symmetry;
        by apply Hcons. }
  rewrite G; [|done| |].
  - rewrite !decide_True; [done| |].
    + apply list_elem_of_fmap. by exists ("fullDocument", VDocument doc).
    + apply list_elem_of_fmap. by exists ("operationType", VString "insert").
  - intros v Hv. exact (unique_value temp _ _ _ ND Hv Hop).
  - intros v Hv. exact (unique_value temp _ _ _ ND Hv Hdoc).
Qed.

End db_facts.

(** ** The feed loop *)

Section db_claims.
Import db feed.

Lemma classify_update items temp u c :
  (∀ v, ("operationType", v) ∈ items → v = VString "update") →
  classify items temp u c =
  Normal (if decide ("operationType" ∈ items.*1)
          then (Unmarshal_UpdateEvent temp UpdateEvent_zero).1 else u, c).
Proof.
  revert u. induction items as [|[k v] rest IH]; intros u Hv;
    cbn [classify]; [done|].
  rewrite fmap_cons. cbn [fst].
  assert (Hv' : ∀ v, ("operationType", v) ∈ rest → v = VString "update")
    by (intros v' ?; apply Hv; by right).
  destruct (decide (k = "operationType")) as [->|Hk].
  - rewrite (Hv v) by left. cbn [is_string bson_Marshal].
    rewrite bool_decide_eq_true_2 by done. rewrite IH by done.
    rewrite (decide_True (P := "operationType" ∈ _ :: rest.*1)) by left.
    by case_decide.
  - rewrite IH by done. do 2 f_equal. apply decide_ext.
    rewrite elem_of_cons. naive_solver.
Qed.

Lemma classify_insert items temp u c :
  (∀ v, ("operationType", v) ∈ items → v = VString "insert") →
  classify items temp u c =
  Normal (u, if decide ("operationType" ∈ items.*1)
             then (Unmarshal_CreateEvent temp CreateEvent_zero).1 else c).
Proof.
  revert c. induction items as [|[k v] rest IH]; intros c Hv;
    cbn [classify]; [done|].
  rewrite fmap_cons. cbn [fst].
  assert (Hv' : ∀ v, ("operationType", v) ∈ rest → v = VString "insert")
    by (intros v' ?; apply Hv; by right).
  destruct (decide (k = "operationType")) as [->|Hk].
  - rewrite (Hv v) by left. cbn [is_string bson_Marshal].
    rewrite bool_decide_eq_false_2 by done.
    rewrite bool_decide_eq_true_2 by done. rewrite IH by done.
    rewrite (decide_True (P := "operationType" ∈ _ :: rest.*1)) by left.
    by case_decide.
  - rewrite IH by done. do 2 f_equal. apply decide_ext.
    rewrite elem_of_cons. naive_solver.
Qed.

Lemma classify_other items temp u c :
  other_record items → classify items temp u c = Normal (u, c).
Proof.
  induction items as [|[k v] rest IH]; intros Hv; cbn [classify]; [done|].
  assert (Hv' : other_record rest) by (intros v' ?; apply Hv; by right).
  destruct (decide (k = "operationType")) as [->|Hk]; [|by apply IH].
  destruct (Hv v) as [-> ->]; [left|]. by apply IH.
Qed.

Section with_hub.
Variable range : gset ws.Conn → list ws.Conn.
Variable json_Marshal : gmap string string → Error + bytes.

Lemma Listen_body_update keys temp ud delta w :
  update_record temp ud delta →
  Listen_body range json_Marshal keys (inr temp) w =
  match json_Marshal (project (map_to_list (fill ∅ delta)) keys) with
  | inl err => Fatal err
  | inr data => Normal (ws.DispatchUpdate range data w)
  end.
Proof.
  intros Hrec. unfold Listen_body.
  pose proof Hrec as (ND & Hop & _).
  rewrite classify_update by (intros v Hv; exact (unique_value temp _ _ _ ND Hv Hop)).
  rewrite (decide_True (P := "operationType" ∈ temp.*1))
    by (apply list_elem_of_fmap; by exists ("operationType", VString "update")).
  rewrite (Unmarshal_UpdateEvent_ok temp ud delta) by done.
  cbn [fst u_OperationType u_UpdatedFields]. by rewrite decide_True.
Qed.

Lemma Listen_body_insert keys temp doc w :
  insert_record temp doc →
  Listen_body range json_Marshal keys (inr temp) w =
  match json_Marshal (project (map_to_list (fill ∅ doc)) keys) with
  | inl err => Fatal err
  | inr data => Normal (ws.DispatchUpdate range data w)
  end.
Proof.
  intros Hrec. unfold Listen_body.
  pose proof Hrec as (ND & Hop & _).
  rewrite classify_insert by (intros v Hv; exact (unique_value temp _ _ _ ND Hv Hop)).
  rewrite (decide_True (P := "operationType" ∈ temp.*1))
    by (apply list_elem_of_fmap; by exists ("operationType", VString "insert")).
  rewrite (Unmarshal_CreateEvent_ok temp doc) by done.
  cbn [fst snd u_OperationType UpdateEvent_zero c_OperationType
       c_FullDocument].
  rewrite decide_False by done. by rewrite decide_True.
Qed.

(** C4: for an update record the projected payload holds exactly the keys
    that are both in the delta and in the configured list, each with the
    text of the delta's value, whatever the order in which the delta is
    ranged over; this map, marshalled, is what is dispatched.  For the delta
    with the one entry email and the configured keys name and email, the
    payload is the map with the one entry email. *)
Theorem update_projection w :
  (∀ keys temp ud delta,
     update_record temp ud delta →
     let responseMap := project (map_to_list (fill ∅ delta)) keys in
     (∀ k, responseMap !! k =
           if decide (k ∈ keys) then Sprintf_v <$> fill ∅ delta !! k
           else None) ∧
     (∀ entries, entries ≡ₚ map_to_list (fill ∅ delta) →
                 project entries keys = responseMap) ∧
     Listen_body range json_Marshal keys (inr temp) w =
     match json_Marshal responseMap with
     | inl err => Fatal err
     | inr data => Normal (ws.DispatchUpdate range data w)
     end) ∧
  (fill ∅ [("email", VString "new@y.com")] =
     ({[ "email" := VString "new@y.com" ]} : M) ∧
   project (map_to_list (fill ∅ [("email", VString "new@y.com")]))
           ["name"; "email"] = {[ "email" := "new@y.com" ]} ∧
   Listen_body range json_Marshal ["name"; "email"] (inr update_email) w =
   match json_Marshal {[ "email" := "new@y.com" ]} with
   | inl err => Fatal err
   | inr data => Normal (ws.DispatchUpdate range data w)
   end).
Proof.
  assert (G : ∀ keys temp ud delta,
     update_record temp ud delta →
     let responseMap := project (map_to_list (fill ∅ delta)) keys in
     (∀ k, responseMap !! k =
           if decide (k ∈ keys) then Sprintf_v <$> fill ∅ delta !! k
           else None) ∧
     (∀ entries, entries ≡ₚ map_to_list (fill ∅ delta) →
                 project entries keys = responseMap) ∧
     Listen_body range json_Marshal keys (inr temp) w =
     match json_Marshal responseMap with
     | inl err => Fatal err
     | inr data => Normal (ws.DispatchUpdate range data w)
     end).
  { intros keys temp ud delta Hrec. cbv zeta. split_and!.
    - intros k. apply project_lookup.
    - intros entries. apply project_order.
    - by eapply Listen_body_update. }
  split; [exact G|].
  assert (E : project (map_to_list (fill ∅ [("email", VString "new@y.com")]))
                ["name"; "email"] = {[ "email" := "new@y.com" ]}).
  { apply (bool_decide_unpack _). vm_compute. exact I. }
  split_and!; [done|exact E|].
  rewrite <- E.
  refine (proj2 (proj2 (G ["name"; "email"] update_email _ _ _))).
  split_and!.
  - apply (bool_decide_unpack _). vm_compute. exact I.
  - unfold update_email. do 1 apply list_elem_of_further. left.
  - unfold update_email. do 3 apply list_elem_of_further. left.
  - apply (bool_decide_unpack _). vm_compute. exact I.
  - left.
Qed.

(** C5: for an insert record the projected payload holds exactly the keys
    that are both in the full document and in the configured list, each with
    the text of the document's value, whatever the order in which the
    document is ranged over; this map, marshalled, is what is dispatched.
    For the full document name, email, age and the configured keys name and
    email, the payload is the map with the entries name and email. *)
Theorem insert_projection w :
  (∀ keys temp doc,
     insert_record temp doc →
     let responseMap := project (map_to_list (fill ∅ doc)) keys in
     (∀ k, responseMap !! k =
           if decide (k ∈ keys) then Sprintf_v <$> fill ∅ doc !! k
           else None) ∧
     (∀ entries, entries ≡ₚ map_to_list (fill ∅ doc) →
                 project entries keys = responseMap) ∧
     Listen_body range json_Marshal keys (inr temp) w =
     match json_Marshal responseMap with
     | inl err => Fatal err
     | inr data => Normal (ws.DispatchUpdate range data w)
     end) ∧
  (let doc := [("name", VString "John Doe"); ("email", VString "x@y.com");
               ("age", VInt32 30)] in
   project (map_to_list (fill ∅ doc)) ["name"; "email"] =
     {[ "name" := "John Doe"; "email" := "x@y.com" ]} ∧
   project (map_to_list (fill ∅ doc)) ["name"; "email"] !! "age" = None ∧
   Listen_body range json_Marshal ["name"; "email"] (inr insert_john) w =
   match json_Marshal {[ "name" := "John Doe"; "email" := "x@y.com" ]} with
   | inl err => Fatal err
   | inr data => Normal (ws.DispatchUpdate range data w)
   end).
Proof.
  assert (G : ∀ keys temp doc,
     insert_record temp doc →
     let responseMap := project (map_to_list (fill ∅ doc)) keys in
     (∀ k, responseMap !! k =
           if decide (k ∈ keys) then Sprintf_v <$> fill ∅ doc !! k
           else None) ∧
     (∀ entries, entries ≡ₚ map_to_list (fill ∅ doc) →
                 project entries keys = responseMap) ∧
     Listen_body range json_Marshal keys (inr temp) w =
     match json_Marshal responseMap with
     | inl err => Fatal err
     | inr data => Normal (ws.DispatchUpdate range data w)
     end).
  { intros keys temp doc Hrec. cbv zeta. split_and!.
    - intros k. apply project_lookup.
    - intros entries. apply project_order.
    - by eapply Listen_body_insert. }
  split; [exact G|]. cbv zeta.
  assert (E : project
                (map_to_list
                   (fill ∅ [("name", VString "John Doe");
                            ("email", VString "x@y.com"); ("age", VInt32 30)]))
                ["name"; "email"] =
              {[ "name" := "John Doe"; "email" := "x@y.com" ]}).
  { apply (bool_decide_unpack _). vm_compute. exact I. }
  split_and!; [exact E|by rewrite E|].
  rewrite <- E.
  refine (proj2 (proj2 (G ["name"; "email"] insert_john _ _))).
  split_and!.
  - apply (bool_decide_unpack _). vm_compute. exact I.
  - unfold insert_john. do 1 apply list_elem_of_further. left.
  - unfold insert_john. do 2 apply list_elem_of_further. left.
Qed.

(** C6: a record whose operation type is neither insert nor update leaves
    the hub as it is (nothing is written to any subscriber), raises nothing,
    and the loop goes on with the next record. *)
Theorem other_operation_ignored keys temp rest w :
  other_record temp →
  Listen_body range json_Marshal keys (inr temp) w = Normal w ∧
  Listen_loop range json_Marshal keys (inr temp :: rest) w =
  Listen_loop range json_Marshal keys rest w.
Proof.
  intros Hother.
  assert (B : Listen_body range json_Marshal keys (inr temp) w = Normal w).
  { unfold Listen_body. by rewrite classify_other. }
  split; [done|]. cbn [Listen_loop]. by rewrite B.
Qed.

(** What the loop does halt on: a record on which [changeStream.Decode]
    fails ends the process through [log.Fatal]. *)
Lemma decode_error_fatal keys err rest w :
  Listen_body range json_Marshal keys (inl err) w = Fatal err ∧
  Listen_loop range json_Marshal keys (inl err :: rest) w = (w, Fatal err).
Proof. done. Qed.

(** C7 on the code: a record that does not decode into its event struct is
    not fatal.  [bad_update] fails in [bson.Unmarshal] after the operation
    type was set: the loop takes it for an update with an empty delta,
    dispatches the empty payload and goes on.  [bad_insert] fails before the
    operation type is set: the record is skipped, nothing is dispatched, and
    the loop goes on. *)
Theorem unmarshal_error_dropped keys rest w :
  (∃ err, (Unmarshal_UpdateEvent bad_update UpdateEvent_zero).2 = Some err) ∧
  Listen_body range json_Marshal keys (inr bad_update) w =
    match json_Marshal ∅ with
    | inl err => Fatal err
    | inr data => Normal (ws.DispatchUpdate range data w)
    end ∧
  (∃ err, (Unmarshal_CreateEvent bad_insert CreateEvent_zero).2 = Some err) ∧
  Listen_body range json_Marshal keys (inr bad_insert) w = Normal w ∧
  Listen_loop range json_Marshal keys (inr bad_insert :: rest) w =
  Listen_loop range json_Marshal keys rest w.
Proof.
  assert (Cu : classify bad_update bad_update UpdateEvent_zero
                 CreateEvent_zero =
               Normal (mkUpdateEvent "update" ∅, CreateEvent_zero))
    by (vm_compute; reflexivity).
  assert (Ci : classify bad_insert bad_insert UpdateEvent_zero
                 CreateEvent_zero =
               Normal (UpdateEvent_zero, CreateEvent_zero))
    by (vm_compute; reflexivity).
  assert (Bi : Listen_body range json_Marshal keys (inr bad_insert) w =
               Normal w).
  { unfold Listen_body. rewrite Ci.
    cbn [u_OperationType c_OperationType UpdateEvent_zero CreateEvent_zero].
    by rewrite !decide_False. }
  split_and!.
  - vm_compute. by eexists.
  - unfold Listen_body. rewrite Cu. cbn [u_OperationType u_UpdatedFields].
    rewrite decide_True by done. by rewrite map_to_list_empty.
  - vm_compute. by eexists.
  - exact Bi.
  - cbn [Listen_loop]. by rewrite Bi.
Qed.

End with_hub.

(** From the feed to the subscriber: an insert of title, text, extra with
    the configured keys title and text; the one subscriber receives the
    object with text and title and nothing else, and [Listen] returns nil
    when the feed ends. *)
Example feed_to_subscriber :
  let r := Listen elements json_plain (inr [inr insert_titled])
                  ["title"; "text"] (scenario.registered [0]) in
  r.2 = Normal None ∧
  ws.received r.1 0 =
    ["{" +:+ quoted "text" +:+ ":" +:+ quoted "B" +:+ "," +:+
            quoted "title" +:+ ":" +:+ quoted "A" +:+ "}"].
Proof. vm_compute. done. Qed.

(** The update of the email, with one subscriber. *)
Lemma update_projection_witness :
  let keys := ["name"; "email"] in
  let delta := [("email", VString "new@y.com")] in
  let responseMap := project (map_to_list (fill ∅ delta)) keys in
  (∀ k, responseMap !! k =
        if decide (k ∈ keys) then Sprintf_v <$> fill ∅ delta !! k else None) ∧
  (∀ entries, entries ≡ₚ map_to_list (fill ∅ delta) →
              project entries keys = responseMap) ∧
  Listen_body elements json_plain keys (inr update_email)
              (scenario.registered [0]) =
  match json_plain responseMap with
  | inl err => Fatal err
  | inr data => Normal (ws.DispatchUpdate elements data (scenario.registered [0]))
  end.
Proof.
  refine (proj1 (update_projection elements json_plain
                   (scenario.registered [0])) _ update_email _ _ _).
  split_and!.
  - apply (bool_decide_unpack _). vm_compute. exact I.
  - unfold update_email. do 1 apply list_elem_of_further. left.
  - unfold update_email. do 3 apply list_elem_of_further. left.
  - apply (bool_decide_unpack _). vm_compute. exact I.
  - left.
Defined.

(** The insert of name, email and age, with one subscriber. *)
Lemma insert_projection_witness :
  let keys := ["name"; "email"] in
  let doc := [("name", VString "John Doe"); ("email", VString "x@y.com");
              ("age", VInt32 30)] in
  let responseMap := project (map_to_list (fill ∅ doc)) keys in
  (∀ k, responseMap !! k =
        if decide (k ∈ keys) then Sprintf_v <$> fill ∅ doc !! k else None) ∧
  (∀ entries, entries ≡ₚ map_to_list (fill ∅ doc) →
              project entries keys = responseMap) ∧
  Listen_body elements json_plain keys (inr insert_john)
              (scenario.registered [0]) =
  match json_plain responseMap with
  | inl err => Fatal err
  | inr data => Normal (ws.DispatchUpdate elements data (scenario.registered [0]))
  end.
Proof.
  refine (proj1 (insert_projection elements json_plain
                   (scenario.registered [0])) _ insert_john _ _).
  split_and!.
  - apply (bool_decide_unpack _). vm_compute. exact I.
  - unfold insert_john. do 1 apply list_elem_of_further. left.
  - unfold insert_john. do 2 apply list_elem_of_further. left.
Defined.

(** A delete record followed by an update. *)
Lemma other_operation_ignored_witness :
  let w := scenario.registered [0] in
  Listen_body elements json_plain ["name"; "email"] (inr delete_record) w =
    Normal w ∧
  Listen_loop elements json_plain ["name"; "email"]
              [inr delete_record; inr update_email] w =
  Listen_loop elements json_plain ["name"; "email"] [inr update_email] w.
Proof.
  apply (other_operation_ignored elements json_plain).
  intros v Hv. unfold delete_record, token, ns in Hv.
  repeat (apply elem_of_cons in Hv as [Hv|Hv];
          [inversion Hv; subst; by vm_compute|]).
  inversion Hv.
Defined.

End db_claims.

(** ** Connecting and stopping *)

Section lifecycle_claims.
Import db socketeer.

(** C9: the collection handle of the [DB] that [Connect] returns is named
    by the value of the environment variable whose name is [collName]; when
    no such variable is set the name is the empty string, which is not
    [collName] unless [collName] is empty itself. *)
Theorem Connect_collection_from_env mongo_Connect Client_Ping env
  uriString dbName collName d err :
  Connect mongo_Connect Client_Ping env uriString dbName collName =
    Normal (d, err) →
  db_Coll d = (dbName, Getenv env collName) ∧
  (env !! collName = None →
   db_Coll d = (dbName, "") ∧ (collName ≠ "" → (db_Coll d).2 ≠ collName)).
Proof.
  unfold Connect. intros H.
  destruct (mongo_Connect uriString) as [e|client]; [done|].
  destruct (Client_Ping client) as [e|]; [done|].
  injection H as <- <-. cbn [db_Coll]. split; [done|].
  intros Henv. unfold Getenv. rewrite Henv. cbn [default snd].
  split; [done|]. by intros ? <-.
Qed.

(** The example program passes the value of MONGODB_COLLECTION as
    [collName]; no variable of that name is set. *)
Lemma Connect_collection_from_env_witness :
  let d := mkDB (mkClient "mongodb://localhost:27017" true) "app"
                ("app", "") in
  db_Coll d = ("app", Getenv driver.env "users") ∧
  (driver.env !! "users" = None →
   db_Coll d = ("app", "") ∧ ("users" ≠ "" → (db_Coll d).2 ≠ "users")).
Proof.
  apply (Connect_collection_from_env driver.Connect_ok driver.Ping driver.env
           "mongodb://localhost:27017" "app" "users" _ None).
  vm_compute. reflexivity.
Defined.

Section Stop.
Variable range : gset ws.Conn → list ws.Conn.
Variable Client_Disconnect : Client → Client * option Error.

Lemma Stop_not_returned fuel s s' err :
  Stop range Client_Disconnect fuel s ≠ Returned s' err.
Proof.
  revert s s' err. induction fuel as [|fuel IH]; intros s s' err;
    cbn [Stop]; [done|].
  destruct (Disconnect Client_Disconnect (DB s)) as [[d o]|e]; [|done].
  pose proof (IH (mkSocketeer d (ws.Stop range (WS s)))) as N.
  destruct (Stop range Client_Disconnect fuel _) as [s2 e2| |]; [|done|done].
  by destruct (N s2 e2).
Qed.

(** C10, as the code has it.  [Stop] never returns.  A call whose
    [Disconnect] succeeds stops the hub and then calls [Stop] again from its
    deferred function, and ends as that inner call ends; a call whose
    [Disconnect] fails ends the process in [log.Fatal] and calls nothing
    more.  So the calls nest for as long as [Disconnect] succeeds: if it
    always does, no depth bounds the recursion. *)
Theorem Stop_never_returns :
  (∀ fuel s s' err, Stop range Client_Disconnect fuel s ≠ Returned s' err) ∧
  (∀ fuel s d o,
     Disconnect Client_Disconnect (DB s) = Normal (d, o) →
     Stop range Client_Disconnect (S fuel) s =
     Stop range Client_Disconnect fuel
          (mkSocketeer d (ws.Stop range (WS s)))) ∧
  (∀ fuel s err,
     Disconnect Client_Disconnect (DB s) = Fatal err →
     Stop range Client_Disconnect (S fuel) s = Exited err) ∧
  ((∀ c, (Client_Disconnect c).2 = None) →
   ∀ fuel s, ∃ s', Stop range Client_Disconnect fuel s = Unfinished s').
Proof.
  assert (Hre : ∀ fuel s d o,
     Disconnect Client_Disconnect (DB s) = Normal (d, o) →
     Stop range Client_Disconnect (S fuel) s =
     Stop range Client_Disconnect fuel
          (mkSocketeer d (ws.Stop range (WS s)))).
  { intros fuel s d o Hd. cbn [Stop]. rewrite Hd.
    pose proof (Stop_not_returned fuel
                  (mkSocketeer d (ws.Stop range (WS s)))) as N.
    destruct (Stop range Client_Disconnect fuel _) as [s2 e2| |];
      [by destruct (N s2 e2)|done|done]. }
  split_and!.
  - intros fuel s s' err. apply Stop_not_returned.
  - exact Hre.
  - intros fuel s err Hd. cbn [Stop]. by rewrite Hd.
  - intros Hok fuel. induction fuel as [|fuel IH]; intros s.
    + by exists s.
    + assert (∃ d, Disconnect Client_Disconnect (DB s) = Normal (d, None))
        as [d Hd].
      { unfold Disconnect. specialize (Hok (db_Client (DB s))).
        destruct (Client_Disconnect (db_Client (DB s))) as [c o].
        simpl in Hok. subst o. by eexists. }
      rewrite (Hre fuel s d None Hd). apply IH.
Qed.

End Stop.

(** The first call of [Stop] on a connected client nests the second. *)
Lemma Stop_never_returns_witness :
  let s := mkSocketeer driver.example_db (scenario.registered [0; 1]) in
  Stop elements driver.Disconnect 3 s =
  Stop elements driver.Disconnect 2
       (mkSocketeer
          (mkDB (mkClient "mongodb://localhost:27017" false) "app" ("app", ""))
          (ws.Stop elements (WS s))).
Proof.
  refine (proj1 (proj2 (Stop_never_returns elements driver.Disconnect))
            2 _ _ None _).
  vm_compute. reflexivity.
Defined.

(** C10, as the claim words it, fails: the recursion is not unconditional.
    On a client that is already disconnected [Disconnect] fails, and the
    first call of [Stop] ends the process without calling [Stop] again.  On
    a connected client the first call succeeds and nests a second call, whose
    [Disconnect] fails: the process ends at depth two, whatever depth is
    allowed. *)
Lemma Stop_recursion_counterexample :
  let gone := mkSocketeer
                (mkDB (mkClient "mongodb://localhost:27017" false) "app"
                      ("app", ""))
                (scenario.registered [0; 1]) in
  let live := mkSocketeer driver.example_db (scenario.registered [0; 1]) in
  Stop elements driver.Disconnect 1 gone = Exited "client is disconnected" ∧
  (∀ fuel, Stop elements driver.Disconnect (2 + fuel) live =
           Exited "client is disconnected") ∧
  ¬ (∀ fuel, ∃ s', Stop elements driver.Disconnect fuel live = Unfinished s').
Proof.
  split_and!.
  - vm_compute. reflexivity.
  - intros fuel. reflexivity.
  - intros H. by destruct (H 2) as [s' Hs].
Qed.

End lifecycle_claims.

(** * Further properties of the hub *)

Section ws_more.
Import ws scenario.

(** The read loop either still waits, and then changed nothing but the
    trace, or it was left, and then the connection is out of the registry and
    nothing else changed. *)
Lemma handleConnection_loop_cases conn reads w :
  let r := handleConnection_loop conn reads w in
  closed r.1 = closed w ∧ broken r.1 = broken w ∧
  delivered r.1 = delivered w ∧
  ((r.2 = false ∧ (∀ err, ReadErr err ∉ reads) ∧ clients r.1 = clients w ∧
    clientsMux r.1 = clientsMux w ∧
    trace r.1 =
      trace w ++ replicate (length reads) (clientsMux w, CallRead conn)) ∨
   (r.2 = true ∧ (∃ err, ReadErr err ∈ reads) ∧
    clients r.1 = clients w ∖ {[conn]})).
Proof.
  revert w. induction reads as [|[msgType msg|err] rest IH]; intros w; simpl.
  - split_and!; try done. left. split_and!; try done.
    + intros err H. inversion H.
    + by rewrite app_nil_r.
  - destruct (IH (log (CallRead conn) w)) as (I1 & I2 & I3 & I4).
    simpl in *. split_and!; try done.
    destruct I4 as [(R & N & C & M & T)|(R & [err E] & C)]; [left|right].
    + split_and!; try done.
      * intros err [?|?]%elem_of_cons; [done|by eapply N].
      * rewrite T. by rewrite <- app_assoc.
    + split_and!; try done. exists err. by right.
  - split_and!; try done. right. split_and!; try done. exists err. left.
Qed.

Lemma handleConnection_cases conn reads w :
  let r := handleConnection conn reads w in
  broken r.1 = broken w ∧ delivered r.1 = delivered w ∧
  ((r.2 = false ∧ (∀ err, ReadErr err ∉ reads) ∧ clients r.1 = clients w ∧
    closed r.1 = closed w ∧ clientsMux r.1 = clientsMux w ∧
    trace r.1 =
      trace w ++ replicate (length reads) (clientsMux w, CallRead conn)) ∨
   (r.2 = true ∧ (∃ err, ReadErr err ∈ reads) ∧
    clients r.1 = clients w ∖ {[conn]} ∧
    closed r.1 = {[conn]} ∪ closed w)).
Proof.
  unfold handleConnection.
  pose proof (handleConnection_loop_cases conn reads w) as F. simpl in F.
  destruct (handleConnection_loop conn reads w) as [w1 b]; simpl in *.
  destruct F as (F1 & F2 & F3 & [(-> & N & C & M & T)|(-> & E & C)]);
    simpl.
  - split_and!; try done. left. by split_and!.
  - split_and!; try done. right. split_and!; try done.
    + rewrite C. set_solver.
    + by rewrite F1.
Qed.

(** When the read loop of a connection meets an error, that connection and
    no other leaves the registry, it is closed, and nothing else changes:
    the second delete, in the deferred function, finds the connection
    already gone. *)
Theorem read_error_prunes conn reads w :
  (∃ err, ReadErr err ∈ reads) →
  let r := handleConnection conn reads w in
  r.2 = true ∧ clients r.1 = clients w ∖ {[conn]} ∧
  closed r.1 = {[conn]} ∪ closed w ∧ broken r.1 = broken w ∧
  delivered r.1 = delivered w.
Proof.
  intros [err Herr].
  destruct (handleConnection_cases conn reads w)
    as (B & D & [(_ & N & _)|(R & _ & C & K)]).
  - by destruct (N err).
  - done.
Qed.

(** Three subscribers; the read loop of 1 gets a message and then an
    error. *)
Lemma read_error_prunes_witness :
  let r := handleConnection 1 [ReadMsg 1 "hi"; ReadErr "EOF"]
             (registered [0; 1; 2]) in
  r.2 = true ∧ clients r.1 = clients (registered [0; 1; 2]) ∖ {[1]} ∧
  closed r.1 = {[1]} ∪ closed (registered [0; 1; 2]) ∧
  broken r.1 = broken (registered [0; 1; 2]) ∧
  delivered r.1 = delivered (registered [0; 1; 2]).
Proof.
  apply (read_error_prunes 1 [ReadMsg 1 "hi"; ReadErr "EOF"]
           (registered [0; 1; 2])).
  exists "EOF". right. left.
Defined.

(** The messages a subscriber sends are read and dropped: as long as its
    reads succeed the loop goes on, the registry, the closed connections and
    what every subscriber has received stay as they are, and each read is
    made with the mutex as the loop found it. *)
Theorem messages_are_dropped conn reads w :
  (∀ err, ReadErr err ∉ reads) →
  let r := handleConnection conn reads w in
  r.2 = false ∧ clients r.1 = clients w ∧ closed r.1 = closed w ∧
  delivered r.1 = delivered w ∧
  trace r.1 = trace w ++ replicate (length reads) (clientsMux w, CallRead conn).
Proof.
  intros Hok.
  destruct (handleConnection_cases conn reads w)
    as (B & D & [(R & _ & C & K & _ & T)|(_ & [err E] & _)]).
  - done.
  - by destruct (Hok err).
Qed.

Lemma messages_are_dropped_witness :
  let w := registered [0; 1] in
  let r := handleConnection 1 [ReadMsg 1 "a"; ReadMsg 1 "b"] w in
  r.2 = false ∧ clients r.1 = clients w ∧ closed r.1 = closed w ∧
  delivered r.1 = delivered w ∧
  trace r.1 = trace w ++ replicate 2 (clientsMux w, CallRead 1).
Proof.
  apply (messages_are_dropped 1 [ReadMsg 1 "a"; ReadMsg 1 "b"]
           (registered [0; 1])).
  intros err H.
  repeat (apply elem_of_cons in H as [H|H]; [discriminate H|]).
  inversion H.
Defined.

(** A request whose upgrade succeeds: while the reads of the new connection
    succeed it is registered next to the subscribers there were (an already
    registered one stays as it is); once its read loop meets an error the
    registry is what it was before the request, without that connection. *)
Theorem accept_then_leave conn reads w :
  ∃ w' left_loop,
    websocketHandler (inr conn) reads w = Normal (w', left_loop) ∧
    delivered w' = delivered w ∧ broken w' = broken w ∧
    ((∀ err, ReadErr err ∉ reads) →
     left_loop = false ∧ clients w' = {[conn]} ∪ clients w ∧
     closed w' = closed w) ∧
    ((∃ err, ReadErr err ∈ reads) →
     left_loop = true ∧ clients w' = clients w ∖ {[conn]} ∧
     closed w' = {[conn]} ∪ closed w ∧
     (conn ∉ clients w → clients w' = clients w)).
Proof.
  unfold websocketHandler.
  set (w3 := Unlock (map_insert conn (Lock w))).
  destruct (handleConnection conn reads w3) as [w' b] eqn:E.
  exists w', b. split; [done|].
  pose proof (handleConnection_cases conn reads w3) as F.
  cbv zeta in F. rewrite E in F. cbn [fst snd] in F.
  destruct F as (B & D & F). split_and!; [done|done| |].
  - intros Hok. destruct F as [(R & _ & C & K & _)|(_ & [err Herr] & _)];
      [done|by destruct (Hok err)].
  - intros [err Herr]. destruct F as [(_ & N & _)|(R & _ & C & K)];
      [by destruct (N err)|].
    split_and!; [done| |done|].
    + rewrite C. subst w3. simpl. set_solver.
    + intros Hfresh. rewrite C. subst w3. simpl. set_solver.
Qed.

(** The dispatch loop up to the first client that does not take the write:
    the clients before it are written to, the write to it is attempted, and
    the loop returns. *)
Lemma DispatchUpdate_loop_stops pre c post update w :
  (∀ x, x ∈ pre → writable w x = true) →
  writable w c = false →
  DispatchUpdate_loop (pre ++ c :: post) update w =
  log (CallWrite c update) (DispatchUpdate_loop pre update w).
Proof.
  revert w. induction pre as [|a pre IH]; intros w Hpre Hc;
    cbn [app DispatchUpdate_loop].
  - unfold WriteMessage. by rewrite Hc.
  - rewrite WriteMessage_ok by (apply Hpre; left).
    apply IH.
    + intros x Hx. specialize (Hpre x (list_elem_of_further _ _ _ Hx)).
      by rewrite writable_true in *.
    + by rewrite writable_false in *.
Qed.

(** A dispatch reaches exactly the subscribers that the range visits before
    the first one whose write fails: each of them gets the update once; the
    failing one and every one after it get nothing, those after it are not
    even written to. *)
Theorem dispatch_stops_at_first_failure range update w pre c post :
  range_ok range →
  range (clients w) = pre ++ c :: post →
  (∀ x, x ∈ pre → writable w x = true) →
  writable w c = false →
  let w' := DispatchUpdate range update w in
  (∀ x, x ∈ pre → received w' x = received w x ++ [update]) ∧
  (∀ x, x ∉ pre → received w' x = received w x) ∧
  trace w' =
    trace w ++ ((λ x, (true, CallWrite x update)) <$> pre ++ [c]).
Proof.
  intros Hr E Hpre Hc. cbv zeta.
  assert (ND : NoDup pre).
  { pose proof (range_ok_NoDup range (clients w) Hr) as ND.
    rewrite E in ND. by apply NoDup_app in ND as (? & _). }
  assert (L : DispatchUpdate range update w =
              Unlock (log (CallWrite c update)
                        (DispatchUpdate_loop pre update (Lock w)))).
  { unfold DispatchUpdate. cbv zeta.
    change (clients (Lock w)) with (clients w). rewrite E.
    by rewrite DispatchUpdate_loop_stops. }
  assert (R : ∀ x, received (DispatchUpdate range update w) x =
                   if decide (x ∈ pre)
                   then (received w x ++ [update]) else received w x).
  { intros x. rewrite L.
    change (received (Unlock (log (CallWrite c update)
              (DispatchUpdate_loop pre update (Lock w)))) x)
      with (received (DispatchUpdate_loop pre update (Lock w)) x).
    by rewrite DispatchUpdate_loop_all. }
  split_and!.
  - intros x Hx. by rewrite R, decide_True.
  - intros x Hx. by rewrite R, decide_False.
  - rewrite L.
    change (trace (Unlock (log (CallWrite c update)
              (DispatchUpdate_loop pre update (Lock w)))))
      with (trace (DispatchUpdate_loop pre update (Lock w)) ++
            [(clientsMux (DispatchUpdate_loop pre update (Lock w)),
              CallWrite c update)]).
    rewrite DispatchUpdate_loop_trace_all by done.
    destruct (DispatchUpdate_loop_frame pre update (Lock w))
      as (_ & -> & _).
    rewrite fmap_app. simpl. by rewrite <- app_assoc.
Qed.

(** Subscribers 0, 1, 2 are ranged over as 2, 1, 0; the peer of 1 is
    gone. *)
Lemma dispatch_stops_at_first_failure_witness :
  let w := peer_gone 1 (registered [0; 1; 2]) in
  let w' := DispatchUpdate elements "p" w in
  (∀ x, x ∈ [2] → received w' x = received w x ++ ["p"]) ∧
  (∀ x, x ∉ [2] → received w' x = received w x) ∧
  trace w' = trace w ++ ((λ x, (true, CallWrite x "p")) <$> [2] ++ [1]).
Proof.
  apply (dispatch_stops_at_first_failure elements "p"
           (peer_gone 1 (registered [0; 1; 2])) [2] 1 [0]).
  - intros s. reflexivity.
  - vm_compute. reflexivity.
  - intros x Hx. apply list_elem_of_singleton in Hx as ->.
    vm_compute. reflexivity.
  - vm_compute. reflexivity.
Defined.

(** One dispatch to subscribers that all take the write. *)
Lemma DispatchUpdate_received range update w c :
  range_ok range →
  (∀ x, x ∈ clients w → writable w x = true) →
  received (DispatchUpdate range update w) c =
  if decide (c ∈ clients w) then (received w c ++ [update])
  else received w c.
Proof.
  intros Hr Hw. unfold DispatchUpdate, Unlock. rewrite received_set_mux.
  rewrite DispatchUpdate_loop_all.
  - change (clients (Lock w)) with (clients w).
    change (received (Lock w) c) with (received w c).
    apply decide_ext. by apply range_ok_elem.
  - by apply range_ok_NoDup.
  - intros x Hx. apply (range_ok_elem range) in Hx; [|done]. by apply Hw.
Qed.

(** Updates dispatched one after the other reach every subscriber in the
    order of the dispatches: after the updates [us], a subscriber has
    received what it had followed by [us], and the others nothing more. *)
Theorem dispatches_keep_order range us w :
  range_ok range →
  (∀ x, x ∈ clients w → writable w x = true) →
  let w' := run range (OpDispatch <$> us) w in
  clients w' = clients w ∧
  (∀ c, c ∈ clients w → received w' c = received w c ++ us) ∧
  (∀ c, c ∉ clients w → received w' c = received w c).
Proof.
  intros Hr. revert w. induction us as [|u us IH]; intros w Hw.
  { cbv zeta. simpl. split_and!; [done| |done].
    intros c _. by rewrite app_nil_r. }
  cbv zeta. unfold run. rewrite fmap_cons. cbn [foldl run_op].
  fold (run range (OpDispatch <$> us) (DispatchUpdate range u w)).
  destruct (DispatchUpdate_frame range u w) as (F1 & _ & F3 & F4).
  destruct (IH (DispatchUpdate range u w)) as (I1 & I2 & I3).
  { intros x Hx. rewrite F1 in Hx. apply (proj2 (writable_true _ _)).
    rewrite F3, F4. by apply (proj1 (writable_true _ _)), Hw. }
  split_and!.
  - by rewrite I1.
  - intros c Hc. rewrite I2 by (by rewrite F1).
    rewrite DispatchUpdate_received, decide_True by done.
    by rewrite <- app_assoc.
  - intros c Hc. rewrite I3 by (by rewrite F1).
    by rewrite DispatchUpdate_received, decide_False.
Qed.

Lemma dispatches_keep_order_witness :
  let w := registered [0; 1] in
  let w' := run elements (OpDispatch <$> ["a"; "b"; "c"]) w in
  clients w' = clients w ∧
  (∀ c, c ∈ clients w → received w' c = received w c ++ ["a"; "b"; "c"]) ∧
  (∀ c, c ∉ clients w → received w' c = received w c).
Proof.
  apply (dispatches_keep_order elements ["a"; "b"; "c"] (registered [0; 1])).
  - intros s. reflexivity.
  - intros x _. by destruct (registered_fresh [0; 1]) as (_ & W & _).
Defined.

(** A second [Stop] closes nothing: the registry is empty, so the range is
    empty, and all the call does is replace the empty map by a new one. *)
Theorem Stop_twice range w :
  range_ok range →
  let w1 := Stop range w in
  let w2 := Stop range w1 in
  clients w2 = ∅ ∧ closed w2 = closed w1 ∧ delivered w2 = delivered w1 ∧
  trace w2 = trace w1 ++ [(true, MapReset)].
Proof.
  intros Hr. cbv zeta.
  destruct (Stop_frame range w) as (F1 & _).
  destruct (Stop_frame range (Stop range w)) as (G1 & _ & G3 & _ & G5 & G6).
  assert (E : range (clients (Stop range w)) = []).
  { rewrite F1. apply Permutation_nil_r. rewrite (Hr ∅).
    by rewrite elements_empty. }
  rewrite E in G3, G6.
  split_and!; [done| |done|exact G6].
  etrans; [exact G3|]. set_solver.
Qed.

Lemma Stop_twice_witness :
  let w1 := Stop elements (registered [0; 1]) in
  let w2 := Stop elements w1 in
  clients w2 = ∅ ∧ closed w2 = closed w1 ∧ delivered w2 = delivered w1 ∧
  trace w2 = trace w1 ++ [(true, MapReset)].
Proof.
  apply (Stop_twice elements (registered [0; 1])). intros s. reflexivity.
Defined.

(** A connection that [Stop] closed is closed a second time when its read
    loop then ends: [Stop] closes it under the lock, the deferred function
    of [handleConnection] closes it again with the lock free, and the
    registry stays empty. *)
Theorem Stop_then_read_error_closes_again range w c reads :
  range_ok range →
  c ∈ clients w →
  (∃ err, ReadErr err ∈ reads) →
  let w1 := Stop range w in
  let w2 := (handleConnection c reads w1).1 in
  clients w2 = ∅ ∧ (true, CallClose c) ∈ trace w2 ∧
  (false, CallClose c) ∈ trace w2.
Proof.
  intros Hr Hc Herr. cbv zeta.
  destruct (Stop_frame range w) as (F1 & Fm & _ & _ & _ & F6).
  unfold handleConnection.
  pose proof (handleConnection_loop_cases c reads (Stop range w)) as L.
  pose proof (handleConnection_loop_frame c reads (Stop range w)) as T.
  cbv zeta in L, T.
  destruct (handleConnection_loop c reads (Stop range w)) as [w1 b].
  cbn [fst snd] in L, T.
  destruct L as (_ & _ & _ & [(_ & N & _)|(-> & _ & C)]).
  { destruct Herr as [err Herr]. by destruct (N err). }
  destruct T as (_ & _ & _ & _ & T).
  destruct (T Fm) as (_ & added & Tr & _).
  simpl. split_and!.
  - rewrite C, F1. set_solver.
  - rewrite Tr, F6. apply elem_of_app. left. apply elem_of_app. left.
    apply elem_of_app. left. apply elem_of_app. right.
    apply elem_of_app. left.
    apply list_elem_of_fmap. exists c. split; [done|].
    by apply range_ok_elem.
  - apply elem_of_app. right. left.
Qed.

Lemma Stop_then_read_error_closes_again_witness :
  let w1 := Stop elements (registered [0; 1]) in
  let w2 := (handleConnection 0 [ReadErr "closed"] w1).1 in
  clients w2 = ∅ ∧ (true, CallClose 0) ∈ trace w2 ∧
  (false, CallClose 0) ∈ trace w2.
Proof.
  apply (Stop_then_read_error_closes_again elements (registered [0; 1]) 0
           [ReadErr "closed"]).
  - intros s. reflexivity.
  - vm_compute. reflexivity.
  - exists "closed". left.
Defined.

(** What the read loop adds to the trace: reads made with the lock free and
    deletes made with the lock held; what the deferred function adds: one
    more delete under the lock and a close with the lock free. *)
Lemma handleConnection_loop_events conn reads w :
  clientsMux w = false →
  clientsMux (handleConnection_loop conn reads w).1 = false ∧
  ∃ added,
    trace (handleConnection_loop conn reads w).1 = trace w ++ added ∧
    Forall (λ he, he = (false, CallRead conn) ∨ he = (true, MapDelete conn))
           added.
Proof.
  revert w. induction reads as [|[msgType msg|err] rest IH]; intros w Hm;
    simpl.
  - split; [done|]. exists []. split; [by rewrite app_nil_r|constructor].
  - destruct (IH (log (CallRead conn) w) Hm) as (M & added & -> & F).
    split; [done|]. exists ((false, CallRead conn) :: added).
    split; [simpl; by rewrite Hm, <- app_assoc|].
    constructor; [by left|done].
  - split; [done|].
    exists [(false, CallRead conn); (true, MapDelete conn)].
    split; [by rewrite Hm, <- app_assoc|].
    constructor; [by left|]. constructor; [by right|]. constructor.
Qed.

Lemma handleConnection_events conn reads w :
  clientsMux w = false →
  clientsMux (handleConnection conn reads w).1 = false ∧
  ∃ added,
    trace (handleConnection conn reads w).1 = trace w ++ added ∧
    Forall (λ he, he = (false, CallRead conn) ∨ he = (true, MapDelete conn) ∨
                  he = (false, CallClose conn)) added.
Proof.
  intros Hm. unfold handleConnection.
  destruct (handleConnection_loop_events conn reads w Hm)
    as (M & added & T & F).
  destruct (handleConnection_loop conn reads w) as [w1 [|]]; simpl in *.
  - split; [done|].
    exists (added ++ [(true, MapDelete conn); (false, CallClose conn)]).
    split; [rewrite T; by rewrite <- !app_assoc|].
    apply Forall_app. split.
    + eapply Forall_impl; [exact F|]. intros he [?|?]; auto.
    + constructor; [by right; left|]. constructor; [by right; right|].
      constructor.
  - split; [done|]. exists added. split; [done|].
    eapply Forall_impl; [exact F|]. intros he [?|?]; auto.
Qed.

(** Through any run of the hub the mutex is free between two operations,
    and in the trace every change of the registry and every write was made
    with the lock held, and every read with the lock free. *)
Theorem run_keeps_lock_discipline range ops w :
  clientsMux w = false →
  let w' := run range ops w in
  clientsMux w' = false ∧
  ∃ added,
    trace w' = trace w ++ added ∧
    Forall (λ he, match he.2 with
                  | CallRead _ => he.1 = false
                  | CallClose _ => True
                  | _ => he.1 = true
                  end) added.
Proof.
  set (P := λ he : bool * Event,
              match he.2 with
              | CallRead _ => he.1 = false
              | CallClose _ => True
              | _ => he.1 = true
              end).
  assert (H1 : ∀ op w, clientsMux w = false →
     clientsMux (run_op range op w) = false ∧
     ∃ added, trace (run_op range op w) = trace w ++ added ∧
              Forall P added).
  { intros op w0 Hm.
    assert (Hh : ∀ conn reads w1, clientsMux w1 = false →
       clientsMux (handleConnection conn reads w1).1 = false ∧
       ∃ added, trace (handleConnection conn reads w1).1 =
                trace w1 ++ added ∧ Forall P added).
    { intros conn reads w1 Hm1.
      destruct (handleConnection_events conn reads w1 Hm1)
        as (M & added & T & F).
      split; [done|]. exists added. split; [done|].
      eapply Forall_impl; [exact F|].
      by intros he [-> | [-> | ->]]. }
    destruct op as [[err|conn] reads|conn reads|update| |c']; cbn [run_op].
    - split; [done|]. exists []. split; [by rewrite app_nil_r|constructor].
    - unfold websocketHandler.
      destruct (Hh conn reads (Unlock (map_insert conn (Lock w0))) eq_refl)
        as (M & added & T & F).
      destruct (handleConnection conn reads _) as [w' b]. simpl in *.
      split; [done|]. exists ((true, MapInsert conn) :: added).
      split; [by rewrite T, <- app_assoc|]. by constructor.
    - by apply Hh.
    - split; [done|]. unfold DispatchUpdate.
      destruct (DispatchUpdate_loop_trace (range (clients (Lock w0))) update
                  (Lock w0)) as (visited & _ & Hc).
      eexists. split; [exact Hc|].
      apply Forall_fmap, Forall_forall. by intros.
    - destruct (Stop_frame range w0) as (_ & M & _ & _ & _ & T).
      split; [done|]. eexists. split; [exact T|].
      apply Forall_app. split; [|by repeat constructor].
      apply Forall_fmap, Forall_forall. by intros.
    - split; [done|]. exists []. split; [by rewrite app_nil_r|constructor]. }
  intros Hm. cbv zeta. revert w Hm.
  induction ops as [|op ops IH]; intros w Hm.
  { split; [done|]. exists []. split; [by rewrite app_nil_r|constructor]. }
  destruct (H1 op w Hm) as (M1 & a1 & T1 & F1).
  destruct (IH (run_op range op w) M1) as (M2 & a2 & T2 & F2).
  unfold run in *. cbn [foldl]. split; [done|].
  exists (a1 ++ a2). split; [by rewrite T2, T1, <- app_assoc|].
  by apply Forall_app.
Qed.

Lemma run_keeps_lock_discipline_witness :
  let ops := [OpAccept (inr 0) []; OpDispatch "p";
              OpHandle 0 [ReadErr "EOF"]; OpStop] in
  let w' := run elements ops NewWebSocket in
  clientsMux w' = false ∧
  ∃ added,
    trace w' = trace NewWebSocket ++ added ∧
    Forall (λ he, match he.2 with
                  | CallRead _ => he.1 = false
                  | CallClose _ => True
                  | _ => he.1 = true
                  end) added.
Proof.
  apply (run_keeps_lock_discipline elements
           [OpAccept (inr 0) []; OpDispatch "p";
            OpHandle 0 [ReadErr "EOF"]; OpStop] NewWebSocket).
  reflexivity.
Defined.

(** One dispatch appends the update to what a connection has received, or
    appends nothing: never twice, never anything else. *)
Lemma DispatchUpdate_loop_at_most_once todo update w c :
  NoDup todo →
  received (DispatchUpdate_loop todo update w) c = received w c ∨
  received (DispatchUpdate_loop todo update w) c = received w c ++ [update].
Proof.
  revert w. induction todo as [|a rest IH]; intros w ND;
    cbn [DispatchUpdate_loop]; [by left|].
  apply NoDup_cons in ND as [Ha ND].
  unfold WriteMessage. destruct (writable w a) eqn:Hw; [|by left].
  set (w1 := deliver a update (log (CallWrite a update) w)).
  destruct (decide (c = a)) as [->|Hne].
  - right.
    assert (E : received (DispatchUpdate_loop rest update w1) a =
                received w1 a).
    { revert ND Ha. generalize w1. clear.
      induction rest as [|b rest IH]; intros w1 ND Ha;
        cbn [DispatchUpdate_loop]; [done|].
      apply NoDup_cons in ND as [_ ND].
      apply not_elem_of_cons in Ha as [Hab Ha].
      unfold WriteMessage. destruct (writable w1 b); [|done].
      rewrite IH by done. rewrite received_deliver.
      by rewrite decide_False. }
    rewrite E. subst w1. rewrite received_deliver. by rewrite decide_True.
  - destruct (IH w1 ND) as [E|E]; [left|right]; rewrite E; subst w1;
      rewrite received_deliver; by rewrite decide_False.
Qed.

(** Whatever happens to the hub, a connection only ever receives updates
    that were dispatched, each at most once per dispatch and in the order
    of the dispatches: what it received during a run is a sublist of the
    updates the run dispatched. *)
Theorem received_only_what_was_dispatched range ops w c :
  range_ok range →
  ∃ extra,
    received (run range ops w) c = received w c ++ extra ∧
    extra `sublist_of` dispatched ops.
Proof.
  intros Hr. revert w. induction ops as [|op ops IH]; intros w.
  { exists []. split; [by rewrite app_nil_r|done]. }
  unfold run. cbn [foldl]. fold (run range ops (run_op range op w)).
  destruct (IH (run_op range op w)) as (extra & E & S).
  assert (Hsame : received (run_op range op w) c = received w c →
            ∃ extra0, received (run range ops (run_op range op w)) c =
                      received w c ++ extra0 ∧
                      extra0 `sublist_of` dispatched (op :: ops)).
  { intros R. exists extra. split; [by rewrite E, R|].
    unfold dispatched in *. destruct op; simpl; try done.
    by apply sublist_cons. }
  destruct op as [[err|conn] reads|conn reads|update| |c']; cbn [run_op] in *.
  - by apply Hsame.
  - apply Hsame.
    destruct (websocketHandler (inr conn) reads w) as [[w' b]|e] eqn:W;
      [|done].
    apply websocketHandler_frame in W as (_ & _ & _ & D & _).
    unfold received. by rewrite D.
  - apply Hsame.
    destruct (handleConnection_frame conn reads w) as (_ & _ & _ & D & _).
    unfold received. by rewrite D.
  - assert (A : received (DispatchUpdate range update w) c = received w c ∨
                received (DispatchUpdate range update w) c =
                received w c ++ [update]).
    { unfold DispatchUpdate, Unlock. rewrite received_set_mux.
      apply (DispatchUpdate_loop_at_most_once _ update (Lock w) c).
      by apply range_ok_NoDup. }
    destruct A as [A|A]; [by apply Hsame|].
    exists (update :: extra). split.
    + rewrite E, A. by rewrite <- app_assoc.
    + unfold dispatched in *. simpl. by apply sublist_skip.
  - apply Hsame.
    destruct (Stop_frame range w) as (_ & _ & _ & _ & D & _).
    unfold received. by rewrite D.
  - by apply Hsame.
Qed.

Lemma received_only_what_was_dispatched_witness :
  ∃ extra,
    received (run elements [OpAccept (inr 0) []; OpDispatch "a"; OpStop;
                            OpDispatch "b"] NewWebSocket) 0 =
    received NewWebSocket 0 ++ extra ∧
    extra `sublist_of` dispatched [OpAccept (inr 0) []; OpDispatch "a";
                                   OpStop; OpDispatch "b"].
Proof.
  apply (received_only_what_was_dispatched elements
           [OpAccept (inr 0) []; OpDispatch "a"; OpStop; OpDispatch "b"]
           NewWebSocket 0).
  intros s. reflexivity.
Defined.

(** No operation puts or leaves a closed connection in the registry, as long
    as a connection that is accepted is not one that was closed before: a
    connection is closed only by [Stop], which empties the registry, and by
    the end of its read loop, which deleted it first. *)
Theorem registry_holds_no_closed range op w :
  clients w ## closed w →
  (∀ conn reads, op = OpAccept (inr conn) reads → conn ∉ closed w) →
  clients (run_op range op w) ## closed (run_op range op w).
Proof.
  intros Hd Hfresh.
  destruct op as [[err|conn] reads|conn reads|update| |c']; cbn [run_op].
  - done.
  - specialize (Hfresh conn reads eq_refl). unfold websocketHandler.
    pose proof (handleConnection_cases conn reads
                  (Unlock (map_insert conn (Lock w)))) as F.
    cbv zeta in F.
    destruct (handleConnection conn reads _) as [w' b]. cbn [fst snd] in F.
    destruct F as (_ & _ & [(_ & _ & C & K & _)|(_ & _ & C & K)]);
      rewrite C, K; simpl; set_solver.
  - destruct (handleConnection_cases conn reads w)
      as (_ & _ & [(_ & _ & -> & -> & _)|(_ & _ & -> & ->)]); set_solver.
  - destruct (DispatchUpdate_frame range update w) as (-> & _ & -> & _).
    done.
  - destruct (Stop_frame range w) as (-> & _). set_solver.
  - done.
Qed.

Lemma registry_holds_no_closed_witness :
  clients (run_op elements (OpAccept (inr 2) [ReadErr "EOF"])
             (registered [0; 1])) ##
  closed (run_op elements (OpAccept (inr 2) [ReadErr "EOF"])
            (registered [0; 1])).
Proof.
  apply (registry_holds_no_closed elements (OpAccept (inr 2) [ReadErr "EOF"])
           (registered [0; 1])).
  - apply (bool_decide_unpack _). vm_compute. exact I.
  - intros conn reads [= <- <-]. apply (bool_decide_unpack _).
    vm_compute. exact I.
Defined.

End ws_more.

(** ** The server *)

Section server_more.
Import ws scenario.

Lemma Start_serve_app pre post w :
  Start_serve (pre ++ post) w =
  match Start_serve pre w with
  | (w', None) => Start_serve post w'
  | r => r
  end.
Proof.
  revert w. induction pre as [|[upgrade reads] pre IH]; intros w;
    cbn [app Start_serve]; [done|].
  destruct (websocketHandler upgrade reads w) as [[w' b]|err]; [|done].
  apply IH.
Qed.

Lemma Start_serve_upgrades_ok requests w :
  (∀ rq, rq ∈ requests → ∃ conn, rq.1 = inr conn) →
  (Start_serve requests w).2 = None.
Proof.
  revert w. induction requests as [|[upgrade reads] rest IH]; intros w Hok;
    cbn [Start_serve]; [done|].
  destruct (Hok (upgrade, reads)) as [conn E]; [left|]. simpl in E. subst.
  unfold websocketHandler.
  destruct (handleConnection conn reads _) as [w' b].
  apply IH. intros rq Hrq. apply Hok. by right.
Qed.

(** One request whose upgrade fails ends the server and the process: the
    requests before it were handled, it and the requests after it are not,
    whatever [ListenAndServe] would have returned.  When every upgrade
    succeeds the server ends only as [ListenAndServe] ends. *)
Theorem failed_upgrade_ends_server pre err reads post served w :
  (∀ rq, rq ∈ pre → ∃ conn, rq.1 = inr conn) →
  Start (pre ++ (inl err, reads) :: post) served w =
    ((Start_serve pre w).1, Ended (Fatal err)) ∧
  Start pre served w =
    ((Start_serve pre w).1,
     match served with
     | None => Running
     | Some (Some e) => Ended (Fatal e)
     | Some None => Ended (Normal ())
     end).
Proof.
  intros Hok. pose proof (Start_serve_upgrades_ok pre w Hok) as N.
  unfold Start. rewrite Start_serve_app.
  destruct (Start_serve pre w) as [w' o]. simpl in N. subst o.
  split; [done|]. by destruct served as [[e|]|].
Qed.

(** Two connections are accepted, the third request is not a websocket
    upgrade, a fourth would have been accepted. *)
Lemma failed_upgrade_ends_server_witness :
  let pre := [(inr 0, []); (inr 1, [])] in
  Start (pre ++ (inl "not a websocket handshake", []) :: [(inr 2, [])])
        None NewWebSocket =
    ((Start_serve pre NewWebSocket).1,
     Ended (Fatal "not a websocket handshake")) ∧
  Start pre None NewWebSocket = ((Start_serve pre NewWebSocket).1, Running).
Proof.
  apply (failed_upgrade_ends_server [(inr 0, []); (inr 1, [])]
           "not a websocket handshake" [] [(inr 2, [])] None NewWebSocket).
  intros rq Hrq.
  apply elem_of_cons in Hrq as [->|Hrq]; [by exists 0|].
  apply elem_of_cons in Hrq as [->|Hrq]; [by exists 1|].
  inversion Hrq.
Defined.

End server_more.

(** * Further properties of the feed loop *)

Section db_more.
Import db feed.

(** The payload depends on the configured keys as a set: repeating a key or
    changing the order of the keys changes nothing. *)
Theorem projection_depends_on_key_set (m : M) keys keys' :
  (∀ k, k ∈ keys ↔ k ∈ keys') →
  project (map_to_list m) keys = project (map_to_list m) keys'.
Proof.
  intros Hset. apply map_eq. intros k. rewrite !project_lookup.
  apply decide_ext, Hset.
Qed.

Lemma projection_depends_on_key_set_witness :
  project (map_to_list (fill ∅ [("name", VString "John Doe");
                                ("email", VString "x@y.com")]))
          ["name"; "email"; "name"] =
  project (map_to_list (fill ∅ [("name", VString "John Doe");
                                ("email", VString "x@y.com")]))
          ["email"; "name"].
Proof.
  apply projection_depends_on_key_set.
  intros k. rewrite !elem_of_cons, !elem_of_nil. naive_solver.
Defined.

(** The payload is empty exactly when the source map has none of the
    configured keys. *)
Lemma project_empty (m : M) keys :
  project (map_to_list m) keys = ∅ ↔ ∀ k, k ∈ keys → m !! k = None.
Proof.
  split.
  - intros E k Hk. pose proof (project_lookup m keys k) as L.
    rewrite E, lookup_empty, decide_True in L by done.
    by destruct (m !! k).
  - intros H. apply map_eq. intros k. rewrite project_lookup, lookup_empty.
    case_decide as Hk; [|done]. by rewrite H.
Qed.

Lemma classify_normal items temp u c :
  ∃ r, classify items temp u c = Normal r.
Proof.
  revert u c. induction items as [|[k v] rest IH]; intros u c;
    cbn [classify]; [by eexists|].
  destruct (decide (k = "operationType")); [|apply IH].
  destruct (is_string v "update"); [apply IH|].
  destruct (is_string v "insert"); apply IH.
Qed.

Section with_hub.
Variable range : gset ws.Conn → list ws.Conn.
Variable json_Marshal : gmap string string → Error + bytes.

(** An update or an insert that touches none of the configured fields is
    still broadcast: the subscribers are sent the marshalled empty map. *)
Theorem unlisted_fields_still_dispatch keys w :
  (∀ temp ud delta,
     update_record temp ud delta →
     (∀ k, k ∈ keys → fill ∅ delta !! k = None) →
     Listen_body range json_Marshal keys (inr temp) w =
     match json_Marshal ∅ with
     | inl err => Fatal err
     | inr data => Normal (ws.DispatchUpdate range data w)
     end) ∧
  (∀ temp doc,
     insert_record temp doc →
     (∀ k, k ∈ keys → fill ∅ doc !! k = None) →
     Listen_body range json_Marshal keys (inr temp) w =
     match json_Marshal ∅ with
     | inl err => Fatal err
     | inr data => Normal (ws.DispatchUpdate range data w)
     end).
Proof.
  split.
  - intros temp ud delta Hrec Hnone.
    rewrite (Listen_body_update range json_Marshal keys temp ud delta w Hrec).
    by rewrite (proj2 (project_empty _ _) Hnone).
  - intros temp doc Hrec Hnone.
    rewrite (Listen_body_insert range json_Marshal keys temp doc w Hrec).
    by rewrite (proj2 (project_empty _ _) Hnone).
Qed.

(** One round of the loop leaves the registry, the closed and the broken
    connections as they are. *)
Lemma Listen_body_frame keys decoded w w' :
  Listen_body range json_Marshal keys decoded w = Normal w' →
  ws.clients w' = ws.clients w ∧ ws.closed w' = ws.closed w ∧
  ws.broken w' = ws.broken w.
Proof.
  unfold Listen_body. destruct decoded as [err|temp]; [done|].
  destruct (classify temp temp UpdateEvent_zero CreateEvent_zero)
    as [[u c]|err]; [|done].
  assert (D : ∀ data, ws.clients (ws.DispatchUpdate range data w) =
                        ws.clients w ∧
                      ws.closed (ws.DispatchUpdate range data w) =
                        ws.closed w ∧
                      ws.broken (ws.DispatchUpdate range data w) =
                        ws.broken w).
  { intros data.
    by destruct (DispatchUpdate_frame range data w) as (? & _ & ? & ?). }
  repeat case_decide.
  - destruct (json_Marshal _) as [err|data]; [done|].
    intros [= <-]. apply D.
  - destruct (json_Marshal _) as [err|data]; [done|].
    intros [= <-]. apply D.
  - by intros [= <-].
Qed.

(** What makes a round fatal: the record did not decode from the stream, or
    [json.Marshal] failed. *)
Lemma Listen_body_fatal keys decoded w err :
  Listen_body range json_Marshal keys decoded w = Fatal err →
  decoded = inl err ∨ ∃ m, json_Marshal m = inl err.
Proof.
  unfold Listen_body. destruct decoded as [e|temp].
  { intros [= ->]. by left. }
  destruct (classify_normal temp temp UpdateEvent_zero CreateEvent_zero)
    as [[u c] ->].
  repeat case_decide.
  - destruct (json_Marshal _) as [e|data] eqn:E; [|done].
    intros [= ->]. right. eauto.
  - destruct (json_Marshal _) as [e|data] eqn:E; [|done].
    intros [= ->]. right. eauto.
  - done.
Qed.

Lemma Listen_loop_app keys feed1 feed2 w :
  Listen_loop range json_Marshal keys (feed1 ++ feed2) w =
  match Listen_loop range json_Marshal keys feed1 w with
  | (w1, Normal _) => Listen_loop range json_Marshal keys feed2 w1
  | r => r
  end.
Proof.
  revert w. induction feed1 as [|decoded feed1 IH]; intros w;
    cbn [app Listen_loop]; [done|].
  destruct (Listen_body range json_Marshal keys decoded w); [apply IH|done].
Qed.

Lemma Listen_loop_outcome keys feed w :
  let r := Listen_loop range json_Marshal keys feed w in
  ws.clients r.1 = ws.clients w ∧ ws.closed r.1 = ws.closed w ∧
  ws.broken r.1 = ws.broken w ∧
  (r.2 = Normal None ∨
   ∃ err, r.2 = Fatal err ∧
          (inl err ∈ feed ∨ ∃ m, json_Marshal m = inl err)).
Proof.
  revert w. induction feed as [|decoded feed IH]; intros w;
    cbn [Listen_loop].
  { split_and!; try done. by left. }
  destruct (Listen_body range json_Marshal keys decoded w) as [w1|err] eqn:B.
  - destruct (Listen_body_frame keys decoded w w1 B) as (F1 & F2 & F3).
    destruct (IH w1) as (I1 & I2 & I3 & I4). cbv zeta.
    split_and!; try congruence.
    destruct I4 as [N|(err & F & [Hin|Hm])]; [by left|right|right];
      exists err; (split; [done|]); [left; by right|by right].
  - simpl. split_and!; try done. right. exists err. split; [done|].
    destruct (Listen_body_fatal keys decoded w err B) as [->|Hm];
      [left; left|by right].
Qed.

(** How [Listen] ends.  It never returns an error: it returns nil when the
    feed ends, or the process is ended by [log.Fatal], and that is because
    [Watch] failed, a record did not decode from the stream, or
    [json.Marshal] failed.  With a feed whose records all decode and a
    [json.Marshal] that never fails it returns nil.  In every case the
    registry is as it was. *)
Theorem Listen_ends watch keys w :
  let r := Listen range json_Marshal watch keys w in
  ws.clients r.1 = ws.clients w ∧
  (∀ err, r.2 ≠ Normal (Some err)) ∧
  (∀ err, r.2 = Fatal err →
          watch = inl err ∨ (∃ feed, watch = inr feed ∧ inl err ∈ feed) ∨
          ∃ m, json_Marshal m = inl err) ∧
  (∀ feed, watch = inr feed →
           (∀ err, inl err ∉ feed) →
           (∀ m err, json_Marshal m ≠ inl err) →
           r.2 = Normal None).
Proof.
  unfold Listen. destruct watch as [e|feed]; cbv zeta.
  { split_and!; try done. intros err [= ->]. by left. }
  destruct (Listen_loop_outcome keys feed w) as (C & _ & _ & O).
  cbv zeta in O. split_and!.
  - done.
  - intros err E. destruct O as [N|(e & F & _)]; congruence.
  - intros err E. destruct O as [N|(e & F & [Hin|Hm])]; [congruence| |].
    + right. left. exists feed. split; [done|]. congruence.
    + right. right. destruct Hm as [m Hm]. exists m. congruence.
  - intros feed' [= <-] Hdec Hjson.
    destruct O as [N|(e & F & [Hin|[m Hm]])]; [done| |].
    + by destruct (Hdec e).
    + by destruct (Hjson m e).
Qed.

(** A feed read in two parts: the second part is read from the hub the
    first part left, unless the first part was fatal; so after a record that
    does not decode from the stream no later record is looked at. *)
Theorem Listen_loop_in_parts keys feed1 feed2 w :
  Listen_loop range json_Marshal keys (feed1 ++ feed2) w =
    match Listen_loop range json_Marshal keys feed1 w with
    | (w1, Normal _) => Listen_loop range json_Marshal keys feed2 w1
    | r => r
    end ∧
  ((Listen_loop range json_Marshal keys feed1 w).2 = Normal None →
   ∀ err,
     Listen_loop range json_Marshal keys (feed1 ++ inl err :: feed2) w =
     ((Listen_loop range json_Marshal keys feed1 w).1, Fatal err)).
Proof.
  split; [apply Listen_loop_app|].
  intros N err. rewrite Listen_loop_app.
  destruct (Listen_loop range json_Marshal keys feed1 w) as [w1 r].
  simpl in N. by subst r.
Qed.

End with_hub.

(** The update of the email, when only the title is configured. *)
Lemma unlisted_fields_still_dispatch_witness :
  Listen_body elements json_plain ["title"] (inr update_email)
              (scenario.registered [0]) =
  match json_plain ∅ with
  | inl err => Fatal err
  | inr data =>
      Normal (ws.DispatchUpdate elements data (scenario.registered [0]))
  end.
Proof.
  refine (proj1 (unlisted_fields_still_dispatch elements json_plain ["title"]
                   (scenario.registered [0])) update_email _
                [("email", VString "new@y.com")] _ _).
  - split_and!.
    + apply (bool_decide_unpack _). vm_compute. exact I.
    + unfold update_email. do 1 apply list_elem_of_further. left.
    + unfold update_email. do 3 apply list_elem_of_further. left.
    + apply (bool_decide_unpack _). vm_compute. exact I.
    + left.
  - intros k Hk. apply list_elem_of_singleton in Hk as ->.
    vm_compute. reflexivity.
Defined.

(** A feed of an insert followed by a record that does not decode. *)
Lemma Listen_loop_in_parts_witness :
  Listen_loop elements json_plain ["name"]
    ([inr insert_john] ++ inl "bad document" :: [inr update_email])
    (scenario.registered [0]) =
  ((Listen_loop elements json_plain ["name"] [inr insert_john]
      (scenario.registered [0])).1,
   Fatal "bad document").
Proof.
  apply (proj2 (Listen_loop_in_parts elements json_plain ["name"]
                  [inr insert_john] [inr update_email]
                  (scenario.registered [0]))).
  vm_compute. reflexivity.
Defined.

End db_more.

(** * Further properties of the socketeer and of the example program *)

Section socketeer_more.
Import db socketeer example.

Variable range : gset ws.Conn → list ws.Conn.
Variable json_Marshal : gmap string string → Error + bytes.
Variable mongo_Connect : string → Error + Client.
Variable Client_Ping : Client → option Error.
Variable Client_Disconnect : Client → Client * option Error.

(** The collection of the socketeer [NewSocketeer] returns. *)
Lemma NewSocketeer_coll env uriString dbName collName s err :
  NewSocketeer mongo_Connect Client_Ping env uriString dbName collName =
    Normal (Some s, err) →
  db_Coll (DB s) = (dbName, Getenv env collName).
Proof.
  unfold NewSocketeer, Connect.
  destruct (mongo_Connect uriString) as [e|client]; [done|].
  destruct (Client_Ping client) as [e|]; [done|].
  by intros [= <- <-].
Qed.

(** [NewSocketeer] never returns an error and never returns no socketeer:
    it ends the process, because the connection or the ping failed, or it
    returns a socketeer with the client that connected and answered the
    ping, the database and the collection handles, and a hub without
    subscribers. *)
Theorem NewSocketeer_result env uriString dbName collName :
  match NewSocketeer mongo_Connect Client_Ping env uriString dbName collName
  with
  | Normal (Some s, None) =>
      mongo_Connect uriString = inr (db_Client (DB s)) ∧
      Client_Ping (db_Client (DB s)) = None ∧
      db_DB (DB s) = dbName ∧
      db_Coll (DB s) = (dbName, Getenv env collName) ∧
      WS s = ws.NewWebSocket
  | Normal _ => False
  | Fatal err =>
      mongo_Connect uriString = inl err ∨
      ∃ client, mongo_Connect uriString = inr client ∧
                Client_Ping client = Some err
  end.
Proof.
  unfold NewSocketeer, Connect.
  destruct (mongo_Connect uriString) as [e|client]; [by left|].
  destruct (Client_Ping client) as [e|] eqn:P; [right; eauto|].
  by cbn.
Qed.

(** [Start] leaves the database handle alone. *)
Lemma Start_keeps_DB watch keys s :
  DB (Start range json_Marshal watch keys s).1 = DB s.
Proof.
  unfold Start.
  by destruct (Listen range json_Marshal watch keys (WS s))
    as [w [[e|]|e]].
Qed.


(** The nested calls of [Stop] do not change the names of the database and
    of the collection. *)
Lemma Stop_Unfinished_names fuel s s' :
  Stop range Client_Disconnect fuel s = Unfinished s' →
  db_DB (DB s') = db_DB (DB s) ∧ db_Coll (DB s') = db_Coll (DB s).
Proof.
  revert s. induction fuel as [|fuel IH]; intros s; cbn [Stop].
  { by intros [= <-]. }
  unfold Disconnect.
  destruct (Client_Disconnect (db_Client (DB s))) as [client [e|]]; [done|].
  destruct (Stop range Client_Disconnect fuel _) as [s2 e2| |s2] eqn:E;
    [done|done|].
  intros [= <-]. by destruct (IH _ E).
Qed.

(** The example program looks the collection up twice: it passes the value
    of MONGODB_COLLECTION to [NewSocketeer], and [Connect] takes that value
    as the name of a variable.  Whenever the program gets as far as its
    socketeer, the collection it watches is named by the variable whose name
    is the value of MONGODB_COLLECTION, and by the empty string when no such
    variable is set. *)
Theorem main_collection_looked_up_twice fuel os_env file watch signal s :
  main range json_Marshal mongo_Connect Client_Ping Client_Disconnect
       fuel os_env (inr file) watch signal = MainWaiting s ∨
  main range json_Marshal mongo_Connect Client_Ping Client_Disconnect
       fuel os_env (inr file) watch signal = MainUnfinished s →
  let env := loaded os_env file in
  db_Coll (DB s) =
    (Getenv env "MONGODB_DB", Getenv env (Getenv env "MONGODB_COLLECTION")) ∧
  (env !! Getenv env "MONGODB_COLLECTION" = None →
   db_Coll (DB s) = (Getenv env "MONGODB_DB", "")).
Proof.
  intros H. cbv zeta.
  assert (G : db_Coll (DB s) =
              (Getenv (loaded os_env file) "MONGODB_DB",
               Getenv (loaded os_env file)
                      (Getenv (loaded os_env file) "MONGODB_COLLECTION"))).
  { unfold main in H. cbv zeta in H.
    destruct (NewSocketeer _ _ _ _ _ _) as [[[s0|] [e|]]|e] eqn:N;
      try (by destruct H); try done.
    apply NewSocketeer_coll in N as Coll.
    pose proof (Start_keeps_DB watch ["title"; "text"] s0) as D.
    destruct (Start range json_Marshal watch ["title"; "text"] s0)
      as [s1 [o|e]]; [|by destruct H].
    cbn [fst] in D. destruct signal.
    - destruct (Stop range Client_Disconnect fuel s1) as [s2 e2|e2|s2] eqn:E;
        try (by destruct H).
      destruct H as [H|H]; [done|]. injection H as <-.
      destruct (Stop_Unfinished_names fuel s1 s2 E) as (_ & ->).
      by rewrite D.
    - destruct H as [H|H]; [|done]. injection H as <-. by rewrite D. }
  split; [exact G|]. intros Hnone. rewrite G. f_equal.
  unfold Getenv at 1. by rewrite Hnone.
Qed.

(** The example program never gets to its last line: once a signal has
    arrived it is inside [Stop], which does not return, so it never prints
    that it stopped and never returns from [main]. *)
Theorem main_never_returns fuel os_env dotenv watch signal :
  main range json_Marshal mongo_Connect Client_Ping Client_Disconnect
       fuel os_env dotenv watch signal ≠ MainReturned.
Proof.
  unfold main. destruct dotenv as [e|file]; [done|]. cbv zeta.
  destruct (NewSocketeer _ _ _ _ _ _) as [[[s0|] [e|]]|e]; try done.
  destruct (Start range json_Marshal watch ["title"; "text"] s0)
    as [s1 [o|e]]; [|done].
  destruct signal; [|done].
  pose proof (Stop_not_returned range Client_Disconnect fuel s1) as N.
  destruct (Stop range Client_Disconnect fuel s1) as [s2 e2| |]; try done.
  by destruct (N s2 e2).
Qed.

End socketeer_more.

(** The example program with the environment of its .env file: the
    collection is named users there, and no variable is named users. *)
Lemma main_collection_looked_up_twice_witness :
  let s := socketeer.mkSocketeer driver.example_db ws.NewWebSocket in
  let env := example.loaded ∅ driver.env in
  db.db_Coll (socketeer.DB s) =
    (db.Getenv env "MONGODB_DB",
     db.Getenv env (db.Getenv env "MONGODB_COLLECTION")) ∧
  (env !! db.Getenv env "MONGODB_COLLECTION" = None →
   db.db_Coll (socketeer.DB s) = (db.Getenv env "MONGODB_DB", "")).
Proof.
  apply (main_collection_looked_up_twice elements feed.json_plain
           driver.Connect_ok driver.Ping driver.Disconnect
           3 ∅ driver.env (inr []) false).
  left. vm_compute. reflexivity.
Defined.

(** * The feed loop and the hub together *)

Section fan_out.
Import db feed.

Variable range : gset ws.Conn → list ws.Conn.
Variable json_Marshal : gmap string string → Error + bytes.

(** A round of the loop that is not fatal dispatches one payload or
    nothing. *)
Lemma Listen_body_cases keys decoded w w' :
  Listen_body range json_Marshal keys decoded w = Normal w' →
  w' = w ∨ ∃ data, w' = ws.DispatchUpdate range data w.
Proof.
  unfold Listen_body. destruct decoded as [err|temp]; [done|].
  destruct (classify temp temp UpdateEvent_zero CreateEvent_zero)
    as [[u c]|err]; [|done].
  repeat case_decide.
  - destruct (json_Marshal _) as [err|data]; [done|].
    intros [= <-]. right. by eexists.
  - destruct (json_Marshal _) as [err|data]; [done|].
    intros [= <-]. right. by eexists.
  - intros [= <-]. by left.
Qed.

(** The loop fans out evenly: while the subscribers take their writes,
    every one of them receives the same payloads in the same order, at most
    one for each record of the feed, and nobody else receives anything; this
    holds for what was done before a fatal record too. *)
Theorem Listen_fans_out keys feed w :
  ws.range_ok range →
  (∀ c, c ∈ ws.clients w → ws.writable w c = true) →
  let r := Listen_loop range json_Marshal keys feed w in
  ∃ sent,
    (List.length sent ≤ List.length feed)%nat ∧
    (∀ c, c ∈ ws.clients w → ws.received r.1 c = ws.received w c ++ sent) ∧
    (∀ c, c ∉ ws.clients w → ws.received r.1 c = ws.received w c).
Proof.
  intros Hr. revert w. induction feed as [|decoded feed IH]; intros w Hw;
    cbn [Listen_loop].
  { exists []. split_and!; [done| |done]. intros c _. by rewrite app_nil_r. }
  destruct (Listen_body range json_Marshal keys decoded w) as [w1|err] eqn:B.
  - destruct (Listen_body_frame range json_Marshal keys decoded w w1 B)
      as (F1 & F2 & F3).
    assert (Hw1 : ∀ c, c ∈ ws.clients w1 → ws.writable w1 c = true).
    { intros c Hc. rewrite F1 in Hc. apply (proj2 (writable_true _ _)).
      rewrite F2, F3. by apply (proj1 (writable_true _ _)), Hw. }
    destruct (IH w1 Hw1) as (sent & L & I1 & I2). cbv zeta.
    destruct (Listen_body_cases keys decoded w w1 B) as [->|[data ->]].
    + exists sent. split_and!; [simpl; lia|done|done].
    + exists (data :: sent). split_and!; [simpl; lia| |].
      * intros c Hc. rewrite I1 by (by rewrite F1).
        rewrite DispatchUpdate_received, decide_True by done.
        by rewrite <- app_assoc.
      * intros c Hc. rewrite I2 by (by rewrite F1).
        by rewrite DispatchUpdate_received, decide_False.
  - exists []. split_and!; [simpl; lia| |done].
    intros c _. simpl. by rewrite app_nil_r.
Qed.

(** A well-formed record fills exactly one of the two event structs,
    wherever its elements stand and whatever other elements it has: an
    update record gives the update event with its delta and leaves the
    insert event zero, an insert record the other way round; and no record
    is both. *)
Theorem classify_well_formed temp :
  (∀ ud delta,
     update_record temp ud delta →
     classify temp temp UpdateEvent_zero CreateEvent_zero =
     Normal (mkUpdateEvent "update" (fill ∅ delta), CreateEvent_zero)) ∧
  (∀ doc,
     insert_record temp doc →
     classify temp temp UpdateEvent_zero CreateEvent_zero =
     Normal (UpdateEvent_zero, mkCreateEvent "insert" (fill ∅ doc))) ∧
  (∀ ud delta doc,
     update_record temp ud delta → insert_record temp doc → False).
Proof.
  split_and!.
  - intros ud delta Hrec. pose proof Hrec as (ND & Hop & _).
    rewrite classify_update
      by (intros v Hv; exact (unique_value temp _ _ _ ND Hv Hop)).
    rewrite decide_True
      by (apply list_elem_of_fmap;
          by exists ("operationType", VString "update")).
    by rewrite (Unmarshal_UpdateEvent_ok temp ud delta).
  - intros doc Hrec. pose proof Hrec as (ND & Hop & _).
    rewrite classify_insert
      by (intros v Hv; exact (unique_value temp _ _ _ ND Hv Hop)).
    rewrite decide_True
      by (apply list_elem_of_fmap;
          by exists ("operationType", VString "insert")).
    by rewrite (Unmarshal_CreateEvent_ok temp doc).
  - intros ud delta doc (ND & Hu & _) (_ & Hi & _).
    by pose proof (unique_value temp _ _ _ ND Hu Hi).
Qed.

End fan_out.

(** An insert, a delete and an update fed to two subscribers. *)
Lemma Listen_fans_out_witness :
  let w := scenario.registered [0; 1] in
  let feed := [inr feed.insert_john; inr feed.delete_record; inr feed.update_email] in
  let r := db.Listen_loop elements feed.json_plain ["name"; "email"] feed w in
  ∃ sent,
    (List.length sent ≤ List.length feed)%nat ∧
    (∀ c, c ∈ ws.clients w → ws.received r.1 c = ws.received w c ++ sent) ∧
    (∀ c, c ∉ ws.clients w → ws.received r.1 c = ws.received w c).
Proof.
  apply (Listen_fans_out elements feed.json_plain ["name"; "email"]
           [inr feed.insert_john; inr feed.delete_record; inr feed.update_email]
           (scenario.registered [0; 1])).
  - intros s. reflexivity.
  - intros c _. by destruct (registered_fresh [0; 1]) as (_ & W & _).
Defined.

(** * The further properties at work *)

(** A third connection is accepted and its first read fails. *)
Lemma accept_then_leave_witness :
  let w := scenario.registered [0; 1] in
  ∃ w' left_loop,
    ws.websocketHandler (inr 2) [ws.ReadErr "EOF"] w =
      Normal (w', left_loop) ∧
    ws.delivered w' = ws.delivered w ∧ ws.broken w' = ws.broken w ∧
    ((∀ err, ws.ReadErr err ∉ [ws.ReadErr "EOF"]) →
     left_loop = false ∧ ws.clients w' = {[2]} ∪ ws.clients w ∧
     ws.closed w' = ws.closed w) ∧
    ((∃ err, ws.ReadErr err ∈ [ws.ReadErr "EOF"]) →
     left_loop = true ∧ ws.clients w' = ws.clients w ∖ {[2]} ∧
     ws.closed w' = {[2]} ∪ ws.closed w ∧
     (2 ∉ ws.clients w → ws.clients w' = ws.clients w)).
Proof.
  apply (accept_then_leave 2 [ws.ReadErr "EOF"] (scenario.registered [0; 1])).
Defined.

(** The update of the email is classified. *)
Lemma classify_well_formed_witness :
  db.classify feed.update_email feed.update_email db.UpdateEvent_zero
              db.CreateEvent_zero =
  Normal (db.mkUpdateEvent "update"
            (db.fill ∅ [("email", db.VString "new@y.com")]),
          db.CreateEvent_zero).
Proof.
  refine (proj1 (classify_well_formed feed.update_email) _ _ _).
  split_and!.
  - apply (bool_decide_unpack _). vm_compute. exact I.
  - unfold feed.update_email. do 1 apply list_elem_of_further. left.
  - unfold feed.update_email. do 3 apply list_elem_of_further. left.
  - apply (bool_decide_unpack _). vm_compute. exact I.
  - left.
Defined.

(** A feed of one insert and one delete, read to its end. *)
Lemma Listen_ends_witness :
  (db.Listen elements feed.json_plain
     (inr [inr feed.insert_john; inr feed.delete_record]) ["name"]
     (scenario.registered [0])).2 = Normal None.
Proof.
  refine (proj2 (proj2 (proj2 (Listen_ends elements feed.json_plain
            (inr [inr feed.insert_john; inr feed.delete_record]) ["name"]
            (scenario.registered [0])))) _ eq_refl _ _).
  - intros err H.
    repeat (apply elem_of_cons in H as [H|H]; [discriminate H|]).
    inversion H.
  - intros m err. discriminate.
Defined.

(** The example program, with a signal after the feed has ended. *)
Lemma main_never_returns_witness :
  example.main elements feed.json_plain driver.Connect_ok driver.Ping
    driver.Disconnect 5 ∅ (inr driver.env) (inr [inr feed.insert_titled])
    true ≠ example.MainReturned.
Proof.
  apply (main_never_returns elements feed.json_plain driver.Connect_ok
           driver.Ping driver.Disconnect).
Defined.
